(** * RoseLoRA edit trainer: a shallow embedding of
      [easyeditor/models/roselora/roselora_main.py]

    The development follows the source file top-down: the helpers
    ([chunks], [AverageMeter]), the sparsity-rate schedule, the tensor
    operations used by importance tracking and pruning, the request
    preprocessing on an explicit object store, the masked loss, and the
    training loop of [execute_roselora] over an abstract adapter provider.

    Numbers.  Python floats and tensor entries are idealised as exact
    rationals ([Q]); the special values of IEEE arithmetic (not-a-number,
    infinities) are kept where the code can produce them, that is in the
    masked-loss division and in the running average ([fval]). *)

From Stdlib Require Import QArith Qabs Qround Lqa Permutation Sorted.
From stdpp Require Import base list gmap strings.

(** ** Errors raised by the modelled code *)

Inductive error : Type :=
  | NotImplementedError
  | KeyError (key : string)
  | TypeError
  | NameError (var : string)
  | ZeroDivisionError
  | ValueError
  | RuntimeError (msg : string).

(** ** Float values with the IEEE specials *)

Inductive fval : Type :=
  | Fin (q : Q)
  | Inf (neg : bool)
  | NaN.

Definition Qltb (x y : Q) : bool := negb (Qle_bool y x).

Definition Qsign_neg (x : Q) : bool := Qltb x 0.

(** [x + y] *)
Definition fadd (x y : fval) : fval :=
  match x, y with
  | NaN, _ | _, NaN => NaN
  | Fin a, Fin b => Fin (a + b)
  | Inf s, Fin _ | Fin _, Inf s => Inf s
  | Inf s, Inf t => if Bool.eqb s t then Inf s else NaN
  end.

(** [x * y] *)
Definition fmul (x y : fval) : fval :=
  match x, y with
  | NaN, _ | _, NaN => NaN
  | Fin a, Fin b => Fin (a * b)
  | Inf s, Fin b | Fin b, Inf s =>
      if Qeq_bool b 0 then NaN else Inf (xorb s (Qsign_neg b))
  | Inf s, Inf t => Inf (xorb s t)
  end.

(** IEEE division [x / y], as tensors divide: it never raises, a zero
    divisor gives a special value. *)
Definition fdiv (x y : fval) : fval :=
  match x, y with
  | NaN, _ | _, NaN => NaN
  | Fin a, Fin b =>
      if Qeq_bool b 0
      then (if Qeq_bool a 0 then NaN else Inf (Qsign_neg a))
      else Fin (a / b)
  | Inf s, Fin b => Inf (xorb s (Qsign_neg b))
  | Fin _, Inf _ => Fin 0
  | Inf _, Inf _ => NaN
  end.

(** [x < y]; every comparison with not-a-number is false. *)
Definition flt (x y : fval) : bool :=
  match x, y with
  | NaN, _ | _, NaN => false
  | Fin a, Fin b => Qltb a b
  | Inf s, Fin _ => s
  | Fin _, Inf t => negb t
  | Inf s, Inf t => s && negb t
  end.

(** Python [int(x)] on a float: truncation toward zero. *)
Definition py_int (x : Q) : Z := Z.quot (Qnum x) (Z.pos (Qden x)).

(** ** [chunks] *)

(** [chunks_go n chunk arr] is the generator's loop, [chunk] being the
    list under construction; the result lists the yielded chunks in
    order.  Every yield is followed by binding [chunk] to a new list. *)
Fixpoint chunks_go {A : Type} (n : Z) (chunk : list A) (arr : list A)
  : list (list A) :=
  match arr with
  | [] => if (0 <? length chunk)%nat then [chunk] else []
  | a :: arr' =>
      let chunk' := chunk ++ [a] in
      if (Z.of_nat (length chunk') =? n)%Z
      then chunk' :: chunks_go n [] arr'
      else chunks_go n chunk' arr'
  end.

Definition chunks {A : Type} (arr : list A) (n : Z) : list (list A) :=
  chunks_go n [] arr.

(** ** [AverageMeter] *)

Module AverageMeter.

Record t : Type := mk { val : fval; avg : fval; sum : fval; count : Z }.

Definition reset (_ : t) : t :=
  {| val := Fin 0; avg := Fin 0; sum := Fin 0; count := 0 |}.

(** [__init__] only calls [reset]. *)
Definition init : t :=
  {| val := Fin 0; avg := Fin 0; sum := Fin 0; count := 0 |}.

(** [update(val, n)]: the last division is Python's, which raises
    on a zero count. *)
Definition update (m : t) (v : fval) (n : Z) : error + t :=
  let sum' := fadd (sum m) (fmul v (Fin (inject_Z n))) in
  let count' := (count m + n)%Z in
  if (count' =? 0)%Z then inl ZeroDivisionError
  else inr {| val := v; avg := fdiv sum' (Fin (inject_Z count'));
              sum := sum'; count := count' |}.

End AverageMeter.

(** ** The sparsity-rate schedule *)

Definition sparsity : Q := (5 # 100)%Q.
Definition full_iter : Z := 3.
Definition burnin_iter : Z := 20.

(** The value bound to [rate] at outer iteration [it]. *)
Definition rate (it : Z) : Q :=
  if (it <? full_iter)%Z then 1
  else if (full_iter <=? it)%Z && (it <? burnin_iter)%Z then
    (sparsity + (1 - sparsity)
      * (1 - inject_Z (it - full_iter) / inject_Z (burnin_iter - full_iter)) ^ 3)%Q
  else sparsity.

(** ** Tensors

    A two-dimensional tensor is the list of its rows; [shape0] is the
    number of rows and [shape1] the length of a row. *)

Abbreviation tensor := (list (list Q)).

Definition shape0 (m : tensor) : nat := length m.
Definition shape1 (m : tensor) : nat :=
  match m with [] => 0%nat | r :: _ => length r end.

Definition tmap (f : Q -> Q) (a : tensor) : tensor := map (map f) a.
Definition tmap2 (f : Q -> Q -> Q) (a b : tensor) : tensor :=
  zip_with (zip_with f) a b.

(** [torch.abs(p.grad * p)] *)
Definition score (g p : tensor) : tensor := tmap Qabs (tmap2 Qmult g p).

(** [imp * 0.8 + score * 0.2] *)
Definition ema (imp sc : tensor) : tensor :=
  tmap2 Qplus (tmap (fun x => x * (8 # 10))%Q imp)
              (tmap (fun x => x * (2 # 10))%Q sc).

(** *** [torch.kthvalue] *)

Fixpoint insert_sorted (x : Q) (l : list Q) : list Q :=
  match l with
  | [] => [x]
  | y :: l' => if Qle_bool x y then x :: l else y :: insert_sorted x l'
  end.

Definition sort_asc (l : list Q) : list Q := foldr insert_sorted [] l.

(** The [k]-th smallest element of [l], [k] counted from one. *)
Definition kth_smallest (k : nat) (l : list Q) : Q := nth (k - 1) (sort_asc l) 0%Q.

Definition column (j : nat) (m : tensor) : list Q := map (fun r => nth j r 0%Q) m.

Definition k_out_of_range : error :=
  RuntimeError "kthvalue(): selected number k out of range for dimension".

(** [torch.kthvalue(input, k, dim, True)[0]]: the values, with the
    reduced dimension kept at size one.  The call raises unless
    [1 <= k <= input.shape[dim]]. *)
Definition kthvalue (input : tensor) (k : Z) (dim : nat) : error + tensor :=
  match dim with
  | 0%nat =>
      if (1 <=? k)%Z && (k <=? Z.of_nat (shape0 input))%Z
      then inr [map (fun j => kth_smallest (Z.to_nat k) (column j input))
                    (seq 0 (shape1 input))]
      else inl k_out_of_range
  | 1%nat =>
      if (1 <=? k)%Z && (k <=? Z.of_nat (shape1 input))%Z
      then inr (map (fun r => [kth_smallest (Z.to_nat k) r]) input)
      else inl k_out_of_range
  | _ => inl (RuntimeError "Dimension out of range")
  end.

(** Entry [(i, j)] of [t] broadcast against a larger tensor: a dimension
    of size one is read at index zero. *)
Definition bget (t : tensor) (i j : nat) : Q :=
  let r := nth (if (length t =? 1)%nat then 0%nat else i) t [] in
  nth (if (length r =? 1)%nat then 0%nat else j) r 0%Q.

(** [imp < mask_threshold] *)
Definition lt_mask (imp thr : tensor) : list (list bool) :=
  imap (fun i r => imap (fun j x => Qltb x (bget thr i j)) r) imp.

(** [p.data.masked_fill_(mask, v)] *)
Definition masked_fill_ (p : tensor) (mask : list (list bool)) (v : Q) : tensor :=
  zip_with (zip_with (fun x (b : bool) => if b then v else x)) p mask.

Definition clamp1 (lo hi x : Q) : Q :=
  if Qltb x lo then lo else if Qltb hi x then hi else x.

(** [p.data.clamp_(lo, hi)] *)
Definition clamp_ (p : tensor) (lo hi : Q) : tensor := tmap (clamp1 lo hi) p.

Definition clamp_bound : Q := (3 # 1000)%Q.

(** [int(size * (1 - rate))], the rank of the threshold. *)
Definition k_of (size : nat) (rate : Q) : Z :=
  py_int (inject_Z (Z.of_nat size) * (1 - rate))%Q.

(** The pruning of one role-B parameter (threshold along dimension 0)
    and of one role-A parameter (along dimension 1). *)

Definition prune_B (imp p : tensor) (rate : Q) : error + tensor :=
  match kthvalue imp (k_of (shape0 imp) rate) 0 with
  | inl e => inl e
  | inr mask_threshold =>
      inr (clamp_ (masked_fill_ p (lt_mask imp mask_threshold) 0%Q)
                  (- clamp_bound)%Q clamp_bound)
  end.

Definition prune_A (imp p : tensor) (rate : Q) : error + tensor :=
  match kthvalue imp (k_of (shape1 imp) rate) 1 with
  | inl e => inl e
  | inr mask_threshold =>
      inr (clamp_ (masked_fill_ p (lt_mask imp mask_threshold) 0%Q)
                  (- clamp_bound)%Q clamp_bound)
  end.

(** ** Computations that may raise *)

Definition ebind {A B : Type} (m : error + A) (f : A -> error + B) : error + B :=
  match m with inl e => inl e | inr a => f a end.

Notation "'let*' x ':=' m 'in' k" := (ebind m (fun x => k))
  (at level 10, x pattern, m at level 200, k at level 200,
   format "'[v' 'let*'  x  ':='  m  'in' '/' k ']'").

(** ** Edit requests on the object store

    The caller's request list is a list object holding references to
    dictionary objects; string values are immutable.  A location is an
    index into the store and allocation appends. *)

Definition loc : Type := nat.

Inductive obj : Type :=
  | OList (items : list loc)
  | ODict (d : gmap string string).

Abbreviation store := (list obj).

Definition alloc (s : store) (o : obj) : store * loc := (s ++ [o], length s).

(** [deepcopy] of the items of a list of dictionaries; [memo] maps the
    objects already copied to their copies, so that sharing is kept. *)
Fixpoint deepcopy_items (s : store) (memo : gmap loc loc) (items : list loc)
  : error + (store * list loc) :=
  match items with
  | [] => inr (s, [])
  | l :: rest =>
      match memo !! l with
      | Some l' =>
          let* (s', ls) := deepcopy_items s memo rest in inr (s', l' :: ls)
      | None =>
          match s !! l with
          | Some (ODict d) =>
              let '(s1, l') := alloc s (ODict d) in
              let* (s', ls) := deepcopy_items s1 (<[l := l']> memo) rest in
              inr (s', l' :: ls)
          | _ => inl TypeError
          end
      end
  end.

(** [deepcopy(requests)] *)
Definition deepcopy (s : store) (requests : loc) : error + (store * loc) :=
  match s !! requests with
  | Some (OList items) =>
      let* (s', items') := deepcopy_items s ∅ items in
      inr (alloc s' (OList items'))
  | _ => inl TypeError
  end.

Definition space : string := " ".

(** One turn of the loop over the copied requests. *)
Definition prepend_space (s : store) (request : loc) : error + store :=
  match s !! request with
  | Some (ODict d) =>
      match d !! "target_new" with
      | Some t =>
          if String.eqb t space then inr s
          else inr (<[request := ODict (<["target_new" := String.append space t]> d)]> s)
      | None => inl (KeyError "target_new")
      end
  | _ => inl TypeError
  end.

(** [for request in requests: ...]; the store reached is returned also
    when a turn raises, since the earlier turns have already written. *)
Fixpoint preprocess (s : store) (items : list loc) : store * option error :=
  match items with
  | [] => (s, None)
  | request :: rest =>
      match prepend_space s request with
      | inl e => (s, Some e)
      | inr s' => preprocess s' rest
      end
  end.

(** [r[key]] *)
Definition getitem (s : store) (key : string) (r : loc) : error + string :=
  match s !! r with
  | Some (ODict d) =>
      match d !! key with Some v => inr v | None => inl (KeyError key) end
  | _ => inl TypeError
  end.

(** [[r[key] for r in requests]] *)
Fixpoint collect (s : store) (key : string) (items : list loc)
  : error + list string :=
  match items with
  | [] => inr []
  | r :: rest =>
      let* v := getitem s key r in let* vs := collect s key rest in inr (v :: vs)
  end.

Definition list_items (s : store) (l : loc) : error + list loc :=
  match s !! l with
  | Some (OList items) => inr items
  | _ => inl TypeError
  end.

(** ** The masked loss *)

(** [int((i != pad).sum())] and [int((i == pad).sum())] for one row *)
Definition count_ne (pad : Z) (row : list Z) : nat :=
  length (List.filter (fun i => negb (i =? pad)%Z) row).
Definition count_eq (pad : Z) (row : list Z) : nat :=
  length (List.filter (fun i => (i =? pad)%Z) row).

(** [[False] * length + [True] * (prompt_target_len - length)]; a
    negative repetition count gives the empty list. *)
Definition label_mask_row (prompt_target_len length : nat) : list bool :=
  replicate length false ++ replicate (prompt_target_len - length) true.

Definition Qsum (l : list Q) : Q := foldr Qplus 0%Q l.
Definition fsum (l : list fval) : fval := foldr fadd (Fin 0) l.

Definition count_true (m : list bool) : nat :=
  length (List.filter (fun b : bool => b) m).

(** Sum of the masked token losses of one example: the row of
    [(loss * label_mask[:,1:]).sum(1)]. *)
Definition masked_sum (loss_row : list Q) (mask_row : list bool) : Q :=
  Qsum (zip_with (fun x (b : bool) => if b then x else 0%Q) loss_row (tail mask_row)).

(** The row of [label_mask[:,1:].sum(1)]. *)
Definition mask_count (mask_row : list bool) : Q :=
  inject_Z (Z.of_nat (count_true (tail mask_row))).

(** The per-example mean [(loss * label_mask[:,1:]).sum(1) /
    label_mask[:,1:].sum(1)]. *)
Definition example_loss (loss_row : list Q) (mask_row : list bool) : fval :=
  fdiv (Fin (masked_sum loss_row mask_row)) (Fin (mask_count mask_row)).

(** [loss.mean()] *)
Definition fmean (l : list fval) : fval :=
  fdiv (fsum l) (Fin (inject_Z (Z.of_nat (length l)))).

Definition batch_loss (loss : list (list Q)) (label_mask : list (list bool)) : fval :=
  fmean (zip_with example_loss loss label_mask).

(** ** Hyper-parameters, model object and adapter provider *)

Record HyperParams : Type := {
  rank : Z;
  lora_alpha : Q;
  lora_dropout : Q;
  layers : list Z;
  target_modules : list string;
  num_steps : Z;
  batch_size : Z;
  lr : Q;
  weight_decay : Q;
  device : Z;
  lora_type : string
}.

Record LoraConfig : Type := {
  task_type : string;
  inference_mode : bool;
  r : Z;
  cfg_lora_alpha : Q;
  cfg_lora_dropout : Q;
  layers_to_transform : option (list Z);
  cfg_target_modules : list string
}.

(** The fields of the model object that [execute_roselora] reads or
    writes.  [peft_config] is [Some] exactly when the attribute exists. *)
Record Model : Type := {
  use_cache : bool;
  supports_gradient_checkpointing : bool;
  gradient_checkpointing : bool;
  input_require_grads : bool;
  peft_config : option LoraConfig;
  is_parallelizable : bool;
  model_parallel : bool;
  named_parameters : list (string * tensor)
}.

Abbreviation params := (list (string * tensor)).

(** What the external collaborators provide: the tokenizer, the forward
    and backward passes, the optimizer and the adapter wrapper. *)
Class Provider : Type := {
  OptState : Type;
  (** [tok(texts, return_tensors="pt", padding=True)["input_ids"]] *)
  tok : list string -> list (list Z);
  pad_token_id : Z;
  (** the unreduced cross-entropy of the shifted logits and labels,
      viewed as one row per example *)
  token_loss : params -> list (list Z) -> list (list Q);
  (** [p.grad] after [loss.backward()], by parameter name *)
  backward : params -> list (list Z) -> list (list bool) -> string -> tensor;
  adam : params -> Q -> Q -> OptState;
  (** [opt.step()] *)
  adam_step : OptState -> params -> (string -> tensor) -> OptState * params;
  get_peft_model : Model -> LoraConfig -> Model
}.

(** Python's [sub in s] on strings. *)
Definition contains (sub s : string) : bool :=
  match String.index 0 sub s with Some _ => true | None => false end.

(** ** Importance tracking *)

(** The body of [if marker in n: ...] for one parameter. *)
Definition update_imp (marker : string) (imp : gmap string tensor)
    (n : string) (g p : tensor) : gmap string tensor :=
  if contains marker n then
    match imp !! n with
    | None => <[n := score g p]> imp
    | Some old => <[n := ema old (score g p)]> imp
    end
  else imp.

(** The loop over [peft_model.named_parameters()] that follows
    [loss.backward()]. *)
Fixpoint track_importance (grad : string -> tensor) (ps : params)
    (imp_A imp_B : gmap string tensor)
  : gmap string tensor * gmap string tensor :=
  match ps with
  | [] => (imp_A, imp_B)
  | (n, p) :: rest =>
      track_importance grad rest
        (update_imp "lora_A" imp_A n (grad n) p)
        (update_imp "lora_B" imp_B n (grad n) p)
  end.

(** ** Pruning of all adapter parameters *)

Definition prune_param (rate : Q) (imp_A imp_B : gmap string tensor)
    (n : string) (p : tensor) : error + tensor :=
  let* p1 :=
    (if contains "lora_B" n then
       match imp_B !! n with
       | Some imp => prune_B imp p rate
       | None => inl (KeyError n)
       end
     else inr p) in
  if contains "lora_A" n then
    match imp_A !! n with
    | Some imp => prune_A imp p1 rate
    | None => inl (KeyError n)
    end
  else inr p1.

Fixpoint prune_all (rate : Q) (imp_A imp_B : gmap string tensor) (ps : params)
  : error + params :=
  match ps with
  | [] => inr []
  | (n, p) :: rest =>
      let* p' := prune_param rate imp_A imp_B n p in
      let* rest' := prune_all rate imp_A imp_B rest in
      inr ((n, p') :: rest')
  end.

(** ** The training loop *)

Inductive event : Type :=
  | EvGetPeftModel
  | EvOptimizer
  | EvTokenize (texts : list string)
  | EvForward
  | EvBackward
  | EvOptStep
  | EvPrune
  | EvDescription (rate : Q) (avg : fval).

Section Trainer.

Context `{Provider}.

(** The variables of [execute_roselora] that the loop reads and
    writes.  [cur_rate] is the local [rate], unbound until the first
    micro-batch; [log] records the calls to the collaborators, the
    oldest first. *)
Record TrainState : Type := {
  weights : params;
  opt : OptState;
  imp_A : gmap string tensor;
  imp_B : gmap string tensor;
  loss_meter : AverageMeter.t;
  cur_rate : option Q;
  log : list event
}.

(** [label_mask = torch.tensor([...])], with the shape that its product
    with the loss needs.  Row [i] has [max prompt_len[i] prompt_target_len]
    entries.  [torch.tensor] raises [ValueError] unless all rows have
    one length.  The loss has [prompt_target_len - 1] columns, so
    [loss * label_mask[:,1:]] raises [RuntimeError] when the common
    length of the rows is above [prompt_target_len], unless one of the
    two widths is one and broadcasts.  Nothing that the state records
    happens between the two statements, so both tests are made here. *)
Definition make_label_mask (prompt_target_len : nat) (prompt_len : list nat)
  : error + list (list bool) :=
  let rows := map (label_mask_row prompt_target_len) prompt_len in
  let width := length (hd [] rows) in
  if negb (forallb (fun row => (length row =? width)%nat) rows)
  then inl ValueError
  else if (width =? prompt_target_len)%nat
          || (width - 1 =? 1)%nat || (prompt_target_len - 1 =? 1)%nat
       then inr rows
       else inl (RuntimeError "The size of tensor a must match the size of tensor b").

(** The tokenized prompts followed by their targets. *)
Definition batch_inputs_targets (txt tgt : list string) : list (list Z) :=
  tok (zip_with String.append txt tgt).

(** [label_mask] for the batch [txt], [tgt]. *)
Definition batch_label_mask (txt tgt : list string) : error + list (list bool) :=
  let inputs := tok txt in
  let inputs_targets := batch_inputs_targets txt tgt in
  let num_prompt_toks := map (count_ne pad_token_id) inputs in
  let num_pad_toks := map (count_eq pad_token_id) inputs_targets in
  let prompt_len := zip_with Nat.add num_pad_toks num_prompt_toks in
  let prompt_target_len := length (hd [] inputs_targets) in
  make_label_mask prompt_target_len prompt_len.

(** The body of the loop over the zipped chunks, for one [txt], [tgt].
    The gradient and the parameters after the optimizer step are tensors
    of rationals.  They stand for what [loss.backward()] and [opt.step()]
    compute from a loss that is a finite number; from a loss that is
    not, both give entries that are not numbers, which these tensors do
    not hold.  The bounds stated below on the values of the parameters
    after a micro-batch are therefore stated for a finite loss. *)
Definition micro_batch (it : Z) (txt tgt : list string) (st : TrainState)
  : error + TrainState :=
  let rate := rate it in
  let inputs := tok txt in
  let inputs_targets := batch_inputs_targets txt tgt in
  let* label_mask := batch_label_mask txt tgt in
  let bs := Z.of_nat (length inputs) in
  let loss := batch_loss (token_loss (weights st) inputs_targets) label_mask in
  let* meter := AverageMeter.update (loss_meter st) loss bs in
  let grad := backward (weights st) inputs_targets label_mask in
  let '(iA, iB) := track_importance grad (weights st) (imp_A st) (imp_B st) in
  let '(opt', ws) := adam_step (opt st) (weights st) grad in
  let* ws' := (if Qltb rate 1 then prune_all rate iA iB ws else inr ws) in
  inr {| weights := ws'; opt := opt'; imp_A := iA; imp_B := iB;
         loss_meter := meter; cur_rate := Some rate;
         log := log st ++ [EvTokenize txt;
                           EvTokenize (zip_with String.append txt tgt);
                           EvForward; EvBackward; EvOptStep]
                       ++ (if Qltb rate 1 then [EvPrune] else []) |}.

(** The loop [for txt, tgt in zip(chunks(...), chunks(...))]. *)
Fixpoint micro_batches (it : Z) (batches : list (list string * list string))
    (st : TrainState) : error + TrainState :=
  match batches with
  | [] => inr st
  | (txt, tgt) :: rest =>
      let* st' := micro_batch it txt tgt st in micro_batches it rest st'
  end.

(** One outer iteration up to and including the progress-bar update. *)
Definition iteration (hparams : HyperParams) (texts targets : list string)
    (it : Z) (st : TrainState) : error + TrainState :=
  let st0 :=
    {| weights := weights st; opt := opt st; imp_A := imp_A st;
       imp_B := imp_B st; loss_meter := AverageMeter.reset (loss_meter st);
       cur_rate := cur_rate st; log := log st |} in
  let* st1 :=
    micro_batches it
      (zip (chunks texts (batch_size hparams))
           (chunks targets (batch_size hparams))) st0 in
  match cur_rate st1 with
  | None => inl (NameError "rate")
  | Some rt =>
      inr {| weights := weights st1; opt := opt st1; imp_A := imp_A st1;
             imp_B := imp_B st1; loss_meter := loss_meter st1;
             cur_rate := cur_rate st1;
             log := log st1
                      ++ [EvDescription rt (AverageMeter.avg (loss_meter st1))] |}
  end.

(** [it > burnin_iter and loss_meter.avg < 0.1] *)
Definition stop_now (it : Z) (st : TrainState) : bool :=
  (burnin_iter <? it)%Z
  && flt (AverageMeter.avg (loss_meter st)) (Fin (1 # 10)).

(** How the loop over [progress_bar] was left. *)
Inductive loop_exit : Type :=
  | Break (it : Z)        (** the [break] was executed at iteration [it] *)
  | Exhausted             (** the range was exhausted *)
  | Raised (it : Z) (e : error).  (** [e] was raised in iteration [it] *)

(** [train_loop hparams texts targets todo it st]: the iterations
    [it], [it + 1], ..., [it + todo - 1] of the loop. *)
Fixpoint train_loop (hparams : HyperParams) (texts targets : list string)
    (todo : nat) (it : Z) (st : TrainState) : loop_exit * TrainState :=
  match todo with
  | O => (Exhausted, st)
  | S todo' =>
      match iteration hparams texts targets it st with
      | inl e => (Raised it e, st)
      | inr st' =>
          if stop_now it st' then (Break it, st')
          else train_loop hparams texts targets todo' (it + 1) st'
      end
  end.

End Trainer.

(** ** [execute_roselora] *)

Section Execute.

Context `{Provider}.

(** The four statements that open the function body. *)
Definition prepare (model : Model) : Model :=
  {| use_cache := false;
     supports_gradient_checkpointing := true;
     gradient_checkpointing := true;
     input_require_grads := true;
     peft_config := peft_config model;
     is_parallelizable := is_parallelizable model;
     model_parallel := model_parallel model;
     named_parameters := named_parameters model |}.

Definition make_config (hparams : HyperParams) : LoraConfig :=
  {| task_type := "CAUSAL_LM";
     inference_mode := false;
     r := rank hparams;
     cfg_lora_alpha := lora_alpha hparams;
     cfg_lora_dropout := lora_dropout hparams;
     layers_to_transform :=
       if (0 <? length (layers hparams))%nat then Some (layers hparams) else None;
     cfg_target_modules := target_modules hparams |}.

Definition set_parallel (m : Model) : Model :=
  {| use_cache := use_cache m;
     supports_gradient_checkpointing := supports_gradient_checkpointing m;
     gradient_checkpointing := gradient_checkpointing m;
     input_require_grads := input_require_grads m;
     peft_config := peft_config m;
     is_parallelizable := true;
     model_parallel := true;
     named_parameters := named_parameters m |}.

Definition with_parameters (m : Model) (ws : params) : Model :=
  {| use_cache := use_cache m;
     supports_gradient_checkpointing := supports_gradient_checkpointing m;
     gradient_checkpointing := gradient_checkpointing m;
     input_require_grads := input_require_grads m;
     peft_config := peft_config m;
     is_parallelizable := is_parallelizable m;
     model_parallel := model_parallel m;
     named_parameters := ws |}.

(** The result of a call.  [Failed e m] is an exception raised before
    the training loop, [m] being the caller's model object at that
    point; the state an exception leaves behind when it is raised
    inside the loop is not described. *)
Inductive run_result : Type :=
  | Failed (e : error) (m : Model)
  | TrainingFailed (it : Z) (e : error)
  | Returned (peft_model : Model) (how : loop_exit).

Record Run : Type := {
  run_store : store;       (** the object store after the call *)
  run_log : list event;    (** the collaborators called, oldest first *)
  run_result_of : run_result
}.

(** [requests = deepcopy(requests)] followed by the leading-space loop
    and the two comprehensions; the store is returned in every case. *)
Definition prepare_requests (s : store) (requests : loc)
  : store * (error + (list string * list string)) :=
  match deepcopy s requests with
  | inl e => (s, inl e)
  | inr (s1, copy) =>
      match list_items s1 copy with
      | inl e => (s1, inl e)
      | inr items =>
          match preprocess s1 items with
          | (s2, Some e) => (s2, inl e)
          | (s2, None) =>
              (s2, let* texts := collect s2 "prompt" items in
                   let* targets := collect s2 "target_new" items in
                   inr (texts, targets))
          end
      end
  end.

Definition execute_roselora (s : store) (model : Model) (requests : loc)
    (hparams : HyperParams) (keep_original_weight : bool) : Run :=
  let model := prepare model in
  if String.eqb (lora_type hparams) "lora" then
    let wrap := negb (negb keep_original_weight && bool_decide (is_Some (peft_config model))) in
    let peft_model :=
      if wrap then get_peft_model model (make_config hparams) else model in
    let log0 := if wrap then [EvGetPeftModel] else [] in
    let peft_model := set_parallel peft_model in
    match prepare_requests s requests with
    | (s', inl e) =>
        {| run_store := s'; run_log := log0; run_result_of := Failed e peft_model |}
    | (s', inr (texts, targets)) =>
        let st :=
          {| weights := named_parameters peft_model;
             opt := adam (named_parameters peft_model) (lr hparams)
                         (weight_decay hparams);
             imp_A := ∅; imp_B := ∅;
             loss_meter := AverageMeter.init;
             cur_rate := None;
             log := log0 ++ [EvOptimizer] |} in
        match train_loop hparams texts targets
                (Z.to_nat (num_steps hparams)) 0 st with
        | (Raised it e, st') =>
            {| run_store := s'; run_log := log st';
               run_result_of := TrainingFailed it e |}
        | (how, st') =>
            {| run_store := s'; run_log := log st';
               run_result_of := Returned (with_parameters peft_model (weights st')) how |}
        end
    end
  else
    {| run_store := s; run_log := []; run_result_of := Failed NotImplementedError model |}.

End Execute.

(** ** Vocabulary of the properties *)

(** The base of the cube in the annealing phase of [rate]. *)
Definition anneal_base (it : Z) : Q :=
  (1 - inject_Z (it - full_iter) / inject_Z (burnin_iter - full_iter))%Q.

(** [m] has [rows] rows of [cols] entries each. *)
Definition rect {A : Type} (rows cols : nat) (m : list (list A)) : Prop :=
  length m = rows /\ Forall (fun r => length r = cols) m.

(** Entry [(i, j)] of a tensor. *)
Definition tget (m : tensor) (i j : nat) : Q := nth j (nth i m []) 0%Q.

Definition count_if {A : Type} (f : A -> bool) (l : list A) : nat :=
  length (List.filter f l).

Definition is_zero (x : Q) : bool := Qeq_bool x 0.




(** The target stored for a caller's target [t]. *)
Definition leading_space (t : string) : string :=
  if String.eqb t space then t else String.append space t.

(** Every location of [ls] is at or above [base]. *)
Definition above (base : nat) (ls : list loc) : Prop :=
  Forall (fun l => (base <= l)%nat) ls.

(** The dictionary stored for a caller's request dictionary [d]. *)
Definition stored_dict (d : gmap string string) : gmap string string :=
  match d !! "target_new" with
  | Some t =>
      if String.eqb t space then d
      else <["target_new" := String.append space t]> d
  | None => d
  end.

(** ** The states of the loop *)

Section States.

Context `{Provider}.

(** The state after [k] completed iterations of the loop started in
    [st0] at iteration 0, were the loop never left by [break]. *)
Fixpoint state_after (hparams : HyperParams) (texts targets : list string)
    (st0 : TrainState) (k : nat) : error + TrainState :=
  match k with
  | O => inr st0
  | S k' =>
      let* st := state_after hparams texts targets st0 k' in
      iteration hparams texts targets (Z.of_nat k') st
  end.

(** None of the first [k] iterations ended with the stopping test
    satisfied. *)
Definition no_stop_before (hparams : HyperParams) (texts targets : list string)
    (st0 : TrainState) (k : nat) : Prop :=
  forall j sj, (j < k)%nat ->
    state_after hparams texts targets st0 (S j) = inr sj ->
    stop_now (Z.of_nat j) sj = false.

End States.

(** The dictionary at [l] holds a target that starts with a space. *)
Definition target_spaced (s : store) (l : loc) : Prop :=
  exists d t, s !! l = Some (ODict d) /\ d !! "target_new" = Some t
              /\ String.get 0 t = Some Ascii.Space.

(** ** Sample data *)


(** A 4 x 1 importance tensor with distinct scores, and a parameter
    without zero entries. *)
Definition column_imp : tensor := [[1]; [2]; [3]; [4]]%Q.
Definition column_p : tensor := [[1]; [1]; [-1]; [1 # 2000]]%Q.

(** ** A small provider to run the model on

    Tokens are character codes, padding is on the left with token [pad],
    every token loss is the constant [c], every gradient entry of an
    adapter parameter is one, the optimizer subtracts a tenth of the
    gradient, and the wrapper adds one adapter pair of shapes 1 x [dim]
    (role A) and [dim] x 1 (role B). *)

Definition toy_encode (s : string) : list Z :=
  map (fun c => Z.of_nat (Ascii.nat_of_ascii c)) (String.list_ascii_of_string s).

Definition toy_tok (pad : Z) (texts : list string) : list (list Z) :=
  let rows := map toy_encode texts in
  let width := foldr Nat.max 0%nat (map length rows) in
  map (fun row => replicate (width - length row) pad ++ row) rows.

Definition toy_lookup (ws : params) (n : string) : tensor :=
  match List.find (fun np => String.eqb (fst np) n) ws with
  | Some np => snd np
  | None => []
  end.

Definition toy_step (ws : params) (grad : string -> tensor) : params :=
  map (fun np => (fst np, tmap2 (fun x g => x - g * (1 # 10))%Q (snd np) (grad (fst np)))) ws.

Definition toy_wrap (dim : nat) (m : Model) (cfg : LoraConfig) : Model :=
  {| use_cache := use_cache m;
     supports_gradient_checkpointing := supports_gradient_checkpointing m;
     gradient_checkpointing := gradient_checkpointing m;
     input_require_grads := input_require_grads m;
     peft_config := Some cfg;
     is_parallelizable := is_parallelizable m;
     model_parallel := model_parallel m;
     named_parameters :=
       named_parameters m
         ++ [("h.0.lora_A.weight"%string, [map (fun i => inject_Z (Z.of_nat i)) (seq 1 dim)]);
             ("h.0.lora_B.weight"%string, map (fun i => [inject_Z (Z.of_nat i)]) (seq 1 dim))] |}.

Definition toy_with_pad (pad : Z) (c : Q) (dim : nat) : Provider :=
  {| OptState := unit;
     tok := toy_tok pad;
     pad_token_id := pad;
     token_loss := fun _ ids => map (fun row => map (fun _ => c) (tail row)) ids;
     backward := fun ws _ _ n =>
       tmap (fun _ => if contains "lora_" n then 1%Q else 0%Q) (toy_lookup ws n);
     adam := fun _ _ _ => tt;
     adam_step := fun o ws grad => (o, toy_step ws grad);
     get_peft_model := toy_wrap dim |}.

Definition toy (c : Q) (dim : nat) : Provider := toy_with_pad 0 c dim.

(** The same provider with the space character (code 32) as padding
    token, as when a tokenizer pads with a token that also occurs in
    texts. *)
Definition toy_space_pad (c : Q) (dim : nat) : Provider := toy_with_pad 32 c dim.

Definition toy_model : Model :=
  {| use_cache := true;
     supports_gradient_checkpointing := false;
     gradient_checkpointing := false;
     input_require_grads := false;
     peft_config := None;
     is_parallelizable := false;
     model_parallel := false;
     named_parameters := [("h.0.attn.weight"%string, [[1; 2]; [3; 4]]%Q)] |}.

Definition toy_hparams (steps : Z) (type : string) : HyperParams :=
  {| rank := 1; lora_alpha := 32; lora_dropout := (1 # 10)%Q; layers := [];
     target_modules := ["attn"%string]; num_steps := steps; batch_size := 2;
     lr := (1 # 1000)%Q; weight_decay := 0; device := 0; lora_type := type |}.

(** A caller's store: three request dictionaries at locations 0 to 2 (the
    second targets a single space, the third the empty string) and the
    request list at location 3. *)
Definition toy_request (prompt target : string) : obj :=
  ODict (<["prompt"%string := prompt]> (<["target_new"%string := target]> ∅)).

Definition toy_store : store :=
  [toy_request "The capital of France is" "Paris";
   toy_request "A" " ";
   toy_request "B" "";
   OList [0; 1; 2]%nat].

(** The training state of the small provider before the first
    micro-batch, with one adapter pair of dimension 8. *)
Definition toy_weights : params :=
  [("h.0.attn.weight"%string, [[1; 2]; [3; 4]]%Q);
   ("h.0.lora_A.weight"%string, [[1; 2; 3; 4; 5; 6; 7; 8]]%Q);
   ("h.0.lora_B.weight"%string, [[1]; [2]; [3]; [4]; [5]; [6]; [7]; [8]]%Q)].

Definition toy_state (pad : Z) (c : Q) : @TrainState (toy_with_pad pad c 8) :=
  @Build_TrainState (toy_with_pad pad c 8) toy_weights tt ∅ ∅
    AverageMeter.init None [].

(** ** Further vocabulary *)

(** [update] called in turn with the values and weights of [vs]. *)
Fixpoint meter_updates (m : AverageMeter.t) (vs : list (fval * Z))
  : error + AverageMeter.t :=
  match vs with
  | [] => inr m
  | (v, n) :: rest =>
      let* m' := AverageMeter.update m v n in meter_updates m' rest
  end.

(** Finite values with their weights, as arguments of [update]. *)
Definition finite_updates (vs : list (Q * Z)) : list (fval * Z) :=
  map (fun vn => (Fin (fst vn), snd vn)) vs.

(** The weighted sum and the total weight of a list of finite values. *)
Definition weighted_sum (vs : list (Q * Z)) : Q :=
  foldr (fun vn acc => (acc + fst vn * inject_Z (snd vn))%Q) 0%Q vs.
Definition total_weight (vs : list (Q * Z)) : Z :=
  foldr (fun vn acc => (acc + snd vn)%Z) 0%Z vs.

(** Every entry of [t] satisfies [P]. *)
Definition all_entries (P : Q -> Prop) (t : tensor) : Prop :=
  Forall (Forall P) t.

(** A name that marks an adapter parameter of either role. *)
Definition is_adapter (n : string) : bool :=
  contains "lora_A" n || contains "lora_B" n.

(** An entry within the clamp bound. *)
Definition within_bound (x : Q) : Prop := (Qabs x <= clamp_bound)%Q.

(** Every score of every parameter is non-negative. *)
Definition scores_nonneg (imp : gmap string tensor) : Prop :=
  map_Forall (fun _ t => all_entries (fun x => (0 <= x)%Q) t) imp.

(** Every adapter parameter of [ws] has all its entries within the
    clamp bound. *)
Definition adapters_bounded (ws : params) : Prop :=
  Forall (fun np => is_adapter np.1 = true -> all_entries within_bound np.2) ws.

(** An event of the training loop proper: neither the call of the
    adapter wrapper nor the construction of the optimizer. *)
Definition loop_event (ev : event) : Prop :=
  ev <> EvGetPeftModel /\ ev <> EvOptimizer.

(** Entry [(i, j)] of a tensor, where there is one. *)
Definition entry (t : tensor) (i j : nat) : option Q :=
  t !! i ≫= (fun row => row !! j).

(** Every entry of [p'] is zero or the entry of [p] at the same place
    clamped to the bound: nothing else was written. *)
Definition zeroed_or_clamped (p p' : tensor) : Prop :=
  forall i j x', entry p' i j = Some x' ->
    exists x, entry p i j = Some x
              /\ (x' = 0%Q \/ x' = clamp1 (- clamp_bound)%Q clamp_bound x).

(** A progress description reports an average loss that is a finite
    number; any other event passes. *)
Definition reports_finite (ev : event) : bool :=
  match ev with
  | EvDescription _ (Fin _) => true
  | EvDescription _ _ => false
  | _ => true
  end.

Section Apply.

Context `{Provider}.

(** [apply_roselora_to_model]: [weights_copy] is [deepcopy(model)] when
    [copy] is set and the empty dictionary ([None]) otherwise; it is
    computed before [execute_roselora] runs and is returned with the
    edited model when that call returns. *)
Definition apply_roselora_to_model (s : store) (model : Model)
    (requests : loc) (hparams : HyperParams) (copy keep_original_weight : bool)
  : Run * option Model :=
  let weights_copy := if copy then Some model else None in
  (execute_roselora s model requests hparams keep_original_weight, weights_copy).

End Apply.

(** * Properties *)

(** ** [chunks] *)

Section Chunks.

Context {A : Type}.
Implicit Types (arr chunk : list A) (n : Z).

Lemma chunks_go_concat n arr chunk :
  concat (chunks_go n chunk arr) = chunk ++ arr.
Proof.
  revert chunk; induction arr as [|a arr IH]; intros chunk; simpl.
  - destruct chunk; simpl; [done|]. by rewrite !app_nil_r.
  - destruct (Z.eqb_spec (Z.of_nat (length (chunk ++ [a]))) n) as [E|E].
    + simpl. rewrite IH. simpl. by rewrite <- app_assoc.
    + rewrite IH. by rewrite <- app_assoc.
Qed.

(** Every yielded chunk is non-empty and no longer than [n], as long
    as the chunk under construction is shorter than [n]. *)
Lemma chunks_go_bounds n arr chunk c :
  (Z.of_nat (length chunk) < n)%Z ->
  c ∈ chunks_go n chunk arr ->
  (0 < length c)%nat /\ (Z.of_nat (length c) <= n)%Z.
Proof.
  revert chunk; induction arr as [|a arr IH]; intros chunk Hlt; simpl.
  - destruct (Nat.ltb_spec 0 (length chunk)) as [Hpos|Hpos].
    + intros ->%list_elem_of_singleton. lia.
    + intros Hin. by apply elem_of_nil in Hin.
  - destruct (Z.eqb_spec (Z.of_nat (length (chunk ++ [a]))) n) as [E|E].
    + intros [->|Hin]%elem_of_cons.
      * rewrite length_app in *. simpl in *. lia.
      * apply (IH []); [simpl; lia | done].
    + apply IH. rewrite length_app in *. simpl in *. lia.
Qed.

(** Every yielded chunk but the last has exactly [n] elements. *)
Lemma chunks_go_full n arr chunk i c :
  chunks_go n chunk arr !! i = Some c ->
  (S i < length (chunks_go n chunk arr))%nat ->
  Z.of_nat (length c) = n.
Proof.
  revert chunk i; induction arr as [|a arr IH]; intros chunk i; simpl.
  - destruct (0 <? length chunk)%nat; simpl; intros _ ?; lia.
  - destruct (Z.eqb_spec (Z.of_nat (length (chunk ++ [a]))) n) as [E|E].
    + destruct i as [|i]; simpl.
      * intros [= <-] _. done.
      * intros Hc Hlen. apply (IH [] i); [done | lia].
    + apply IH.
Qed.

End Chunks.

(** C8.  For a chunk size [n >= 1], [chunks arr n] yields consecutive
    chunks in the order of [arr] whose concatenation is [arr]; every
    chunk but the last has exactly [n] elements; the last chunk is never
    empty and never longer than [n]; [chunks [1..7] 3] is
    [[1,2,3],[4,5,6],[7]] and [chunks [] 3] yields nothing. *)
Theorem chunks_spec {A : Type} (arr : list A) (n : Z) :
  (1 <= n)%Z ->
  concat (chunks arr n) = arr
  /\ (forall i c, chunks arr n !! i = Some c ->
        (S i < length (chunks arr n))%nat -> Z.of_nat (length c) = n)
  /\ (forall c, last (chunks arr n) = Some c ->
        (0 < length c)%nat /\ (Z.of_nat (length c) <= n)%Z)
  /\ chunks [1; 2; 3; 4; 5; 6; 7]%Z 3 = [[1; 2; 3]; [4; 5; 6]; [7]]%Z
  /\ chunks (@nil Z) 3 = [].
Proof.
  intros Hn. unfold chunks. repeat split.
  - apply chunks_go_concat.
  - intros i c. apply chunks_go_full.
  - apply (chunks_go_bounds n arr []); [simpl; lia|].
    rewrite last_lookup in H. by apply list_elem_of_lookup_2 in H.
  - apply (chunks_go_bounds n arr []); [simpl; lia|].
    rewrite last_lookup in H. by apply list_elem_of_lookup_2 in H.
Qed.

Lemma chunks_spec_witness :
  concat (chunks [10; 20; 30; 40; 50]%Z 2) = [10; 20; 30; 40; 50]%Z
  /\ last (chunks [10; 20; 30; 40; 50]%Z 2) = Some [50%Z].
Proof.
  split.
  - apply (chunks_spec [10; 20; 30; 40; 50]%Z 2). lia.
  - reflexivity.
Defined.

(** ** The sparsity-rate schedule *)

Section Schedule.

Local Open Scope Q_scope.

Lemma cube_expand (x : Q) : x ^ 3 == x * x * x.
Proof. simpl. ring. Qed.

Lemma cube_lt (a b : Q) : 0 <= a -> a < b -> a ^ 3 < b ^ 3.
Proof.
  intros Ha Hab. rewrite !cube_expand.
  assert (Hb : 0 < b) by lra.
  assert (H1 : 0 <= (b - a) * (b + a)) by (apply Qmult_le_0_compat; lra).
  assert (H2 : 0 <= (b * b - a * a) * a) by (apply Qmult_le_0_compat; [nra | lra]).
  assert (H3 : 0 < b * b) by (apply Qmult_lt_0_compat; lra).
  assert (H4 : 0 < (b * b) * (b - a)) by (apply Qmult_lt_0_compat; lra).
  nra.
Qed.

Lemma cube_range (a : Q) : 0 <= a -> a <= 1 -> 0 <= a ^ 3 /\ a ^ 3 <= 1.
Proof.
  intros H0 H1. rewrite !cube_expand.
  assert (H2 : 0 <= a * a) by (apply Qmult_le_0_compat; lra).
  assert (H3 : 0 <= (1 - a) * a) by (apply Qmult_le_0_compat; lra).
  assert (H4 : 0 <= a * a * a) by (apply Qmult_le_0_compat; lra).
  assert (H5 : 0 <= (1 - a * a) * a) by (apply Qmult_le_0_compat; [nra | lra]).
  split; nra.
Qed.

Lemma anneal_base_eq (it : Z) :
  anneal_base it == (20 - inject_Z it) / 17.
Proof.
  unfold anneal_base, full_iter, burnin_iter.
  unfold Z.sub at 1. rewrite inject_Z_plus.
  change (inject_Z (20 - 3)) with (17 # 1).
  change (inject_Z (- (3))) with (- (3 # 1)). field.
Qed.

Lemma anneal_base_range (it : Z) :
  (3 <= it < 20)%Z -> 0 < anneal_base it /\ anneal_base it <= 1.
Proof.
  intros [Hlo Hhi]. rewrite anneal_base_eq.
  rewrite Zlt_Qlt in Hhi. rewrite Zle_Qle in Hlo.
  change (inject_Z 20) with 20 in Hhi. change (inject_Z 3) with 3 in Hlo.
  split.
  - apply Qlt_shift_div_l; lra.
  - apply Qle_shift_div_r; lra.
Qed.

Lemma anneal_base_decreasing (it it' : Z) :
  (it < it')%Z -> anneal_base it' < anneal_base it.
Proof.
  intros Hlt. rewrite !anneal_base_eq. rewrite Zlt_Qlt in Hlt.
  unfold Qdiv. apply Qmult_lt_compat_r; [reflexivity | lra].
Qed.

Lemma rate_anneal (it : Z) :
  (3 <= it < 20)%Z -> rate it = sparsity + (1 - sparsity) * anneal_base it ^ 3.
Proof.
  intros [Hlo Hhi]. unfold rate, anneal_base, full_iter.
  destruct (Z.ltb_spec it 3); [lia|].
  destruct (Z.leb_spec 3 it); [|lia].
  unfold burnin_iter. destruct (Z.ltb_spec it 20); [|lia]. reflexivity.
Qed.

End Schedule.

(** C2.  The rate is a function of the iteration index alone, in three
    phases: exactly 1 before iteration 3; 0.05 + 0.95 (1 - (it-3)/17)^3
    for 3 <= it < 20; exactly 0.05 from iteration 20 on.  Over the
    annealing range it is strictly decreasing and lies in [0.05, 1]. *)
Theorem rate_three_phases (it : Z) :
  ((it < 3)%Z -> rate it = 1%Q)
  /\ ((3 <= it < 20)%Z ->
      (rate it == (5 # 100) + (95 # 100) * (1 - inject_Z (it - 3) / 17) ^ 3)%Q)
  /\ ((20 <= it)%Z -> rate it = (5 # 100)%Q)
  /\ (forall it' : Z, (3 <= it)%Z -> (it < it')%Z -> (it' < 20)%Z ->
        (rate it' < rate it)%Q)
  /\ ((3 <= it < 20)%Z -> ((5 # 100) <= rate it)%Q /\ (rate it <= 1)%Q).
Proof.
  split; [|split; [|split; [|split]]].
  - intros Hlt. unfold rate, full_iter.
    destruct (Z.ltb_spec it 3); [reflexivity | lia].
  - intros Hr. rewrite rate_anneal by done.
    unfold anneal_base, sparsity, full_iter, burnin_iter.
    change (inject_Z (20 - 3)) with 17%Q.
    apply Qplus_comp; [reflexivity|].
    apply Qmult_comp; reflexivity.
  - intros Hge. unfold rate, full_iter, burnin_iter.
    destruct (Z.ltb_spec it 3); [lia|].
    destruct (Z.ltb_spec it 20); [lia|].
    by rewrite andb_false_r.
  - intros it' Hlo Hlt Hhi.
    rewrite !rate_anneal by lia.
    pose proof (anneal_base_range it' ltac:(lia)) as [Hpos _].
    pose proof (anneal_base_decreasing it it' Hlt) as Hdec.
    pose proof (cube_lt _ _ (Qlt_le_weak _ _ Hpos) Hdec) as Hcube.
    unfold sparsity. lra.
  - intros Hr. rewrite rate_anneal by done.
    pose proof (anneal_base_range it Hr) as [Hpos Hle].
    pose proof (cube_range _ (Qlt_le_weak _ _ Hpos) Hle) as [H0 H1].
    unfold sparsity. split; lra.
Qed.

Lemma rate_three_phases_witness :
  rate 2 = 1%Q /\ rate 20 = (5 # 100)%Q /\ (rate 11 < rate 10)%Q
  /\ ((5 # 100) <= rate 10)%Q.
Proof.
  split; [|split; [|split]].
  - apply (rate_three_phases 2). lia.
  - apply (rate_three_phases 20). lia.
  - apply (rate_three_phases 10); lia.
  - apply (rate_three_phases 10). lia.
Defined.

(** ** Sorting and the k-th smallest value *)

Section KthSmallest.

Local Open Scope Q_scope.

Lemma Qltb_lt (x y : Q) : Qltb x y = true <-> x < y.
Proof.
  unfold Qltb. rewrite negb_true_iff, <- not_true_iff_false, Qle_bool_iff.
  split; [apply Qnot_le_lt | apply Qlt_not_le].
Qed.

Lemma Qltb_ge (x y : Q) : Qltb x y = false <-> y <= x.
Proof.
  unfold Qltb. rewrite negb_false_iff. apply Qle_bool_iff.
Qed.







Lemma count_if_le_length {A : Type} (f : A -> bool) (l : list A) :
  (count_if f l <= length l)%nat.
Proof.
  unfold count_if. induction l as [|x l IH]; simpl; [done|].
  destruct (f x); simpl; lia.
Qed.






End KthSmallest.

(** ** Pruning one parameter *)

Section Pruning.

Local Open Scope Q_scope.

Lemma lookup_map {A B : Type} (f : A -> B) (l : list A) (i : nat) :
  map f l !! i = f <$> l !! i.
Proof. apply (list_lookup_fmap f l i). Qed.

Lemma rect_lookup {A : Type} (rows cols : nat) (m : list (list A)) (i : nat) :
  rect rows cols m -> (i < rows)%nat ->
  exists row, m !! i = Some row /\ length row = cols.
Proof.
  intros [Hlen Hall] Hi.
  destruct (lookup_lt_is_Some_2 m i ltac:(lia)) as [row Hrow].
  exists row. split; [done|].
  rewrite Forall_forall in Hall. apply Hall.
  by apply list_elem_of_lookup_2 in Hrow.
Qed.






Lemma clamp1_bounds (lo hi x : Q) :
  lo <= hi -> lo <= clamp1 lo hi x /\ clamp1 lo hi x <= hi.
Proof.
  intros Hle. unfold clamp1.
  destruct (Qltb x lo) eqn:E1; [split; lra|].
  destruct (Qltb hi x) eqn:E2; [split; lra|].
  apply Qltb_ge in E1, E2. split; lra.
Qed.

Lemma clamp1_abs (x : Q) : Qabs (clamp1 (- clamp_bound) clamp_bound x) <= clamp_bound.
Proof.
  apply Qabs_Qle_condition. apply clamp1_bounds. unfold clamp_bound. lra.
Qed.

Lemma clamp1_zero : clamp1 (- clamp_bound) clamp_bound 0 = 0.
Proof. reflexivity. Qed.



End Pruning.

(** ** The rank of the threshold *)

Section Rank.

Local Open Scope Q_scope.

Lemma py_int_floor (x : Q) : 0 <= x -> py_int x = Qfloor x.
Proof.
  destruct x as [n d]. unfold Qle, py_int, Qfloor. simpl. intros Hn.
  apply Z.quot_div_nonneg; lia.
Qed.

Lemma k_of_floor (size : nat) (rt : Q) :
  rt <= 1 -> k_of size rt = Qfloor (inject_Z (Z.of_nat size) * (1 - rt)).
Proof.
  intros Hrt. apply py_int_floor.
  apply Qmult_le_0_compat; [|lra].
  change 0 with (inject_Z 0). rewrite <- Zle_Qle. lia.
Qed.

Lemma k_of_le_size (size : nat) (rt : Q) :
  0 <= rt -> rt <= 1 -> (k_of size rt <= Z.of_nat size)%Z.
Proof.
  intros H0 H1. rewrite k_of_floor by done.
  rewrite <- (Qfloor_Z (Z.of_nat size)) at 2.
  apply Qfloor_resp_le.
  assert (Hs : 0 <= inject_Z (Z.of_nat size)).
  { change 0 with (inject_Z 0). rewrite <- Zle_Qle. lia. }
  assert (0 <= inject_Z (Z.of_nat size) * rt) by (by apply Qmult_le_0_compat).
  lra.
Qed.

Lemma k_of_nonneg (size : nat) (rt : Q) : rt <= 1 -> (0 <= k_of size rt)%Z.
Proof.
  intros Hrt. rewrite k_of_floor by done.
  change 0%Z with (Qfloor 0). apply Qfloor_resp_le.
  apply Qmult_le_0_compat; [|lra].
  change 0 with (inject_Z 0). rewrite <- Zle_Qle. lia.
Qed.

(** The rank is zero exactly when the dimension is below [1 / (1 - rate)]. *)
Lemma k_of_zero_iff (size : nat) (rt : Q) :
  rt < 1 ->
  k_of size rt = 0%Z <-> inject_Z (Z.of_nat size) < 1 / (1 - rt).
Proof.
  intros Hrt. rewrite k_of_floor by lra.
  set (x := inject_Z (Z.of_nat size) * (1 - rt)).
  assert (Hx : 0 <= x).
  { apply Qmult_le_0_compat; [|lra].
    change 0 with (inject_Z 0). rewrite <- Zle_Qle. lia. }
  assert (Hiff : inject_Z (Z.of_nat size) < 1 / (1 - rt) <-> x < 1).
  { unfold x. split; intros Hlt.
    - apply (Qmult_lt_compat_r _ _ (1 - rt)) in Hlt; [|lra].
      assert (E : 1 / (1 - rt) * (1 - rt) == 1) by (field; lra).
      by rewrite E in Hlt.
    - apply Qlt_shift_div_l; [lra | done]. }
  rewrite Hiff. split.
  - intros Hk. pose proof (Qlt_floor x) as Hf. rewrite Hk in Hf.
    simpl in Hf. exact Hf.
  - intros Hlt.
    pose proof (Qfloor_le x) as Hle.
    assert (Hge : (0 <= Qfloor x)%Z).
    { change 0%Z with (Qfloor 0). by apply Qfloor_resp_le. }
    assert (Hlt1 : (Qfloor x < 1)%Z).
    { rewrite Zlt_Qlt. eapply Qle_lt_trans; [exact Hle | exact Hlt]. }
    lia.
Qed.

End Rank.

(** ** The pruning step *)

Section PruneStep.

Local Open Scope Q_scope.





End PruneStep.




(** The same after a whole run of 25 iterations of the small provider,
    whose last pruning step has rate 0.05: the 8 x 1 role-B parameter
    ends with six zero entries, while [floor(8 * 0.95)] is seven. *)
Example prune_zero_count_run :
  exists m how,
    run_result_of
      (@execute_roselora (toy (1 # 2) 8) toy_store toy_model 3%nat
         (toy_hparams 25 "lora") false) = Returned m how
    /\ k_of 8 (rate 24) = 7%Z
    /\ count_if is_zero (column 0 (toy_lookup (named_parameters m)
                                     "h.0.lora_B.weight")) = 6%nat.
Proof. do 2 eexists. split; [by vm_compute|]. split; by vm_compute. Qed.

(** ** Importance tracking *)

Section Importance.

Implicit Types (imp : gmap string tensor) (ps : params) (n : string).

Lemma update_imp_other (marker : string) imp n m (g p : tensor) :
  m <> n -> update_imp marker imp m g p !! n = imp !! n.
Proof.
  intros Hne. unfold update_imp.
  destruct (contains marker m); [|done].
  destruct (imp !! m); by rewrite lookup_insert_ne.
Qed.

Lemma update_imp_marked (marker : string) imp n (g p : tensor) :
  contains marker n = true ->
  update_imp marker imp n g p !! n
  = Some (match imp !! n with
          | None => score g p
          | Some old => ema old (score g p)
          end).
Proof.
  intros Hm. unfold update_imp. rewrite Hm.
  destruct (imp !! n); by rewrite lookup_insert_eq.
Qed.

Lemma update_imp_unmarked (marker : string) imp n (g p : tensor) :
  contains marker n = false -> update_imp marker imp n g p = imp.
Proof. intros Hm. unfold update_imp. by rewrite Hm. Qed.

(** The scores written for [n] depend on the old scores of [n] only. *)
Lemma update_imp_congr (marker : string) imp imp' n (g p : tensor) :
  imp !! n = imp' !! n ->
  update_imp marker imp n g p !! n = update_imp marker imp' n g p !! n.
Proof.
  intros Heq. unfold update_imp.
  destruct (contains marker n); [|done].
  rewrite Heq. destruct (imp' !! n); by rewrite !lookup_insert_eq.
Qed.

(** A name that is not a parameter's keeps its scores. *)
Lemma track_importance_other (grad : string -> tensor) ps iA iB n :
  n ∉ ps.*1 ->
  (track_importance grad ps iA iB).1 !! n = iA !! n
  /\ (track_importance grad ps iA iB).2 !! n = iB !! n.
Proof.
  revert iA iB. induction ps as [|[m p] ps IH]; intros iA iB Hn; simpl.
  - done.
  - rewrite fmap_cons, not_elem_of_cons in Hn. destruct Hn as [Hne Hn].
    simpl in Hne.
    destruct (IH (update_imp "lora_A" iA m (grad m) p)
                 (update_imp "lora_B" iB m (grad m) p) Hn) as [HA HB].
    rewrite HA, HB. by rewrite !update_imp_other.
Qed.

(** With distinct parameter names, the scores of a parameter after the
    loop are those written by its own turn. *)
Lemma track_importance_at (grad : string -> tensor) ps iA iB n (p : tensor) :
  NoDup ps.*1 -> (n, p) ∈ ps ->
  (track_importance grad ps iA iB).1 !! n
    = update_imp "lora_A" iA n (grad n) p !! n
  /\ (track_importance grad ps iA iB).2 !! n
    = update_imp "lora_B" iB n (grad n) p !! n.
Proof.
  revert iA iB. induction ps as [|[m q] ps IH]; intros iA iB Hnd Hin.
  - by apply elem_of_nil in Hin.
  - rewrite fmap_cons in Hnd. apply NoDup_cons in Hnd as [Hm Hnd].
    simpl in Hm. simpl.
    apply elem_of_cons in Hin as [[= <- <-]|Hin].
    + by apply track_importance_other.
    + assert (Hne : m <> n).
      { intros ->. apply Hm. apply list_elem_of_fmap. by exists (n, p). }
      destruct (IH (update_imp "lora_A" iA m (grad m) q)
                   (update_imp "lora_B" iB m (grad m) q) Hnd Hin) as [HA HB].
      rewrite HA, HB.
      split; apply update_imp_congr; by apply update_imp_other.
Qed.

Lemma score_entry (rows cols : nat) (g p : tensor) (i j : nat) :
  rect rows cols g -> rect rows cols p -> (i < rows)%nat -> (j < cols)%nat ->
  tget (score g p) i j = Qabs (tget g i j * tget p i j).
Proof.
  intros Hg Hp Hi Hj.
  destruct (rect_lookup _ _ _ i Hg Hi) as (rg & Hrg & Hlg).
  destruct (rect_lookup _ _ _ i Hp Hi) as (rp & Hrp & Hlp).
  destruct (lookup_lt_is_Some_2 rg j ltac:(lia)) as [x Hx].
  destruct (lookup_lt_is_Some_2 rp j ltac:(lia)) as [y Hy].
  unfold tget, score, tmap, tmap2.
  rewrite (nth_lookup_Some g i [] rg Hrg), (nth_lookup_Some p i [] rp Hrp).
  rewrite (nth_lookup_Some rg j 0%Q x Hx), (nth_lookup_Some rp j 0%Q y Hy).
  erewrite (nth_lookup_Some _ i []); last first.
  { rewrite lookup_map, lookup_zip_with, Hrg, Hrp. simpl. reflexivity. }
  apply nth_lookup_Some.
  by rewrite lookup_map, lookup_zip_with, Hx, Hy.
Qed.

Lemma ema_entry (rows cols : nat) (old sc : tensor) (i j : nat) :
  rect rows cols old -> rect rows cols sc -> (i < rows)%nat -> (j < cols)%nat ->
  tget (ema old sc) i j
  = (tget old i j * (8 # 10) + tget sc i j * (2 # 10))%Q.
Proof.
  intros Ho Hs Hi Hj.
  destruct (rect_lookup _ _ _ i Ho Hi) as (ro & Hro & Hlo).
  destruct (rect_lookup _ _ _ i Hs Hi) as (rs & Hrs & Hls).
  destruct (lookup_lt_is_Some_2 ro j ltac:(lia)) as [x Hx].
  destruct (lookup_lt_is_Some_2 rs j ltac:(lia)) as [y Hy].
  unfold tget, ema, tmap, tmap2.
  rewrite (nth_lookup_Some old i [] ro Hro), (nth_lookup_Some sc i [] rs Hrs).
  rewrite (nth_lookup_Some ro j 0%Q x Hx), (nth_lookup_Some rs j 0%Q y Hy).
  erewrite (nth_lookup_Some _ i []); last first.
  { rewrite lookup_zip_with, !lookup_map, Hro, Hrs. simpl. reflexivity. }
  apply nth_lookup_Some.
  by rewrite lookup_zip_with, !lookup_map, Hx, Hy.
Qed.

End Importance.

(** ** One micro-batch *)

Section MicroBatch.

Context `{Provider}.

(** What a successful micro-batch computed, step by step. *)
Lemma micro_batch_inv (it : Z) (txt tgt : list string) (st st' : TrainState) :
  micro_batch it txt tgt st = inr st' ->
  exists label_mask meter ws',
    batch_label_mask txt tgt = inr label_mask
    /\ AverageMeter.update (loss_meter st)
         (batch_loss (token_loss (weights st) (batch_inputs_targets txt tgt))
                     label_mask)
         (Z.of_nat (length (tok txt))) = inr meter
    /\ let grad := backward (weights st) (batch_inputs_targets txt tgt) label_mask in
       let tracked := track_importance grad (weights st) (imp_A st) (imp_B st) in
       let stepped := adam_step (opt st) (weights st) grad in
       (if Qltb (rate it) 1
        then prune_all (rate it) tracked.1 tracked.2 stepped.2
        else inr stepped.2) = inr ws'
       /\ imp_A st' = tracked.1 /\ imp_B st' = tracked.2
       /\ weights st' = ws' /\ loss_meter st' = meter
       /\ cur_rate st' = Some (rate it).
Proof.
  unfold micro_batch. intros Hmb.
  destruct (batch_label_mask txt tgt) as [e|label_mask]; [done|].
  simpl in Hmb.
  destruct (AverageMeter.update _ _ _) as [e|meter] eqn:Hupd; [done|].
  simpl in Hmb.
  destruct (track_importance _ _ _ _) as [iA iB] eqn:Htrack.
  destruct (adam_step _ _ _) as [opt' ws] eqn:Hstep.
  destruct (if Qltb (rate it) 1 then _ else _) as [e|ws'] eqn:Hprune; [done|].
  simpl in Hmb. injection Hmb as <-.
  exists label_mask, meter, ws'. split; [done|]. split; [exact Hupd|].
  cbv zeta. rewrite Htrack, Hstep. simpl. by rewrite Hprune.
Qed.

End MicroBatch.

(** C3.  In every micro-batch that completes, for every adapter
    parameter [n] with value [p] before the optimizer step and gradient
    [g] from the backward pass: if the name marks role A (role B), the
    importance score of [n] becomes [|g * p|] when [n] had no score yet
    and [0.8 * old + 0.2 * |g * p|] otherwise, entry by entry (the score
    maps are empty when the run starts, so the first case is the first
    observation of the run); a name that does not carry the marker keeps
    its score. *)
Theorem importance_update_spec `{Provider} (it : Z) (txt tgt : list string)
    (st st' : TrainState) (n : string) (p : tensor) :
  micro_batch it txt tgt st = inr st' ->
  NoDup (weights st).*1 ->
  (n, p) ∈ weights st ->
  exists label_mask,
    batch_label_mask txt tgt = inr label_mask
    /\ let g := backward (weights st) (batch_inputs_targets txt tgt) label_mask n in
       (contains "lora_A" n = true ->
          imp_A st' !! n
          = Some (match imp_A st !! n with
                  | None => score g p
                  | Some old => ema old (score g p)
                  end))
       /\ (contains "lora_B" n = true ->
          imp_B st' !! n
          = Some (match imp_B st !! n with
                  | None => score g p
                  | Some old => ema old (score g p)
                  end))
       /\ (imp_A st = ∅ -> contains "lora_A" n = true ->
          imp_A st' !! n = Some (score g p))
       /\ (imp_B st = ∅ -> contains "lora_B" n = true ->
          imp_B st' !! n = Some (score g p))
       /\ (contains "lora_A" n = false -> imp_A st' !! n = imp_A st !! n)
       /\ (contains "lora_B" n = false -> imp_B st' !! n = imp_B st !! n)
       /\ (forall rows cols i j,
             rect rows cols g -> rect rows cols p ->
             (i < rows)%nat -> (j < cols)%nat ->
             tget (score g p) i j = Qabs (tget g i j * tget p i j))
       /\ (forall rows cols old i j,
             rect rows cols old -> rect rows cols (score g p) ->
             (i < rows)%nat -> (j < cols)%nat ->
             tget (ema old (score g p)) i j
             = (tget old i j * (8 # 10) + tget (score g p) i j * (2 # 10))%Q).
Proof.
  intros Hmb Hnd Hin.
  destruct (micro_batch_inv it txt tgt st st' Hmb)
    as (label_mask & meter & ws' & Hmask & _ & Hrest).
  cbv zeta in Hrest. destruct Hrest as (_ & HA & HB & _).
  exists label_mask. split; [done|]. cbv zeta.
  set (grad := backward (weights st) (batch_inputs_targets txt tgt) label_mask) in *.
  destruct (track_importance_at grad (weights st) (imp_A st) (imp_B st) n p Hnd Hin)
    as [HtA HtB].
  rewrite HA, HB, HtA, HtB.
  split; [by apply update_imp_marked|].
  split; [by apply update_imp_marked|].
  split; [intros He Hm; by rewrite update_imp_marked, He, lookup_empty|].
  split; [intros He Hm; by rewrite update_imp_marked, He, lookup_empty|].
  split; [intros Hm; by rewrite update_imp_unmarked|].
  split; [intros Hm; by rewrite update_imp_unmarked|].
  split.
  - intros rows cols i j. apply score_entry.
  - intros rows cols old i j. apply ema_entry.
Qed.

Lemma importance_update_spec_witness :
  exists st',
    @micro_batch (toy (1 # 2) 8) 0 ["A"%string] [" "%string] (toy_state 0 (1 # 2)) = inr st'
    /\ imp_B st' !! "h.0.lora_B.weight"%string
       = Some [[1]; [2]; [3]; [4]; [5]; [6]; [7]; [8]]%Q.
Proof.
  set (st' := match @micro_batch (toy (1 # 2) 8) 0 ["A"%string] [" "%string]
                      (toy_state 0 (1 # 2)) with
              | inr s => s
              | inl _ => toy_state 0 (1 # 2)
              end).
  assert (Hmb : @micro_batch (toy (1 # 2) 8) 0 ["A"%string] [" "%string]
                  (toy_state 0 (1 # 2)) = inr st') by (by vm_compute).
  exists st'. split; [exact Hmb|].
  destruct (@importance_update_spec (toy (1 # 2) 8) 0 ["A"%string] [" "%string]
              (toy_state 0 (1 # 2)) st' "h.0.lora_B.weight"%string
              [[1]; [2]; [3]; [4]; [5]; [6]; [7]; [8]]%Q Hmb)
    as (label_mask & _ & _ & HB & _).
  - apply (bool_decide_unpack _). by vm_compute.
  - simpl. do 2 apply list_elem_of_further. apply list_elem_of_here.
  - rewrite HB by reflexivity. reflexivity.
Defined.

(** ** A failed pruning aborts the run *)

Section PruneError.

Context `{Provider}.

Lemma micro_batch_prune_error (it : Z) (txt tgt : list string)
    (st : TrainState) (label_mask : list (list bool)) (meter : AverageMeter.t)
    (e : error) :
  batch_label_mask txt tgt = inr label_mask ->
  AverageMeter.update (loss_meter st)
    (batch_loss (token_loss (weights st) (batch_inputs_targets txt tgt))
                label_mask)
    (Z.of_nat (length (tok txt))) = inr meter ->
  Qltb (rate it) 1 = true ->
  let grad := backward (weights st) (batch_inputs_targets txt tgt) label_mask in
  let tracked := track_importance grad (weights st) (imp_A st) (imp_B st) in
  let stepped := adam_step (opt st) (weights st) grad in
  prune_all (rate it) tracked.1 tracked.2 stepped.2 = inl e ->
  micro_batch it txt tgt st = inl e.
Proof.
  intros Hmask Hupd Hrate. cbv zeta. intros Hprune.
  unfold micro_batch. rewrite Hmask. simpl. rewrite Hupd. simpl.
  destruct (track_importance _ _ _ _) as [iA iB].
  destruct (adam_step _ _ _) as [opt' ws].
  simpl in Hprune. by rewrite Hrate, Hprune.
Qed.

End PruneError.

(** C10.  With [rate < 1], the rank [k] is zero exactly when the
    dimension is smaller than [1 / (1 - rate)]; then the selection of the
    k-th value is invalid and the pruning of the parameter raises a
    runtime error instead of pruning nothing, for role B (dimension 0)
    and role A (dimension 1) alike; a pruning that succeeds has [k >= 1];
    the error of one parameter is the error of the loop over all
    parameters, of the micro-batch, and of the training loop, which is
    left at that iteration. *)
Theorem prune_rank_zero_raises `{Provider} (imp p : tensor) (rt : Q) :
  (rt < 1)%Q ->
  (k_of (shape0 imp) rt = 0%Z
     <-> (inject_Z (Z.of_nat (shape0 imp)) < 1 / (1 - rt))%Q)
  /\ (k_of (shape1 imp) rt = 0%Z
     <-> (inject_Z (Z.of_nat (shape1 imp)) < 1 / (1 - rt))%Q)
  /\ (k_of (shape0 imp) rt = 0%Z -> prune_B imp p rt = inl k_out_of_range)
  /\ (k_of (shape1 imp) rt = 0%Z -> prune_A imp p rt = inl k_out_of_range)
  /\ (forall res, prune_B imp p rt = inr res -> (1 <= k_of (shape0 imp) rt)%Z)
  /\ (forall res, prune_A imp p rt = inr res -> (1 <= k_of (shape1 imp) rt)%Z)
  /\ (forall (n : string) (iA iB : gmap string tensor) (before after : params),
        contains "lora_B" n = true -> iB !! n = Some imp ->
        k_of (shape0 imp) rt = 0%Z ->
        Forall (fun np => exists q, prune_param rt iA iB np.1 np.2 = inr q) before ->
        prune_all rt iA iB (before ++ (n, p) :: after) = inl k_out_of_range)
  /\ (forall it txt tgt (st : TrainState) label_mask meter e,
        batch_label_mask txt tgt = inr label_mask ->
        AverageMeter.update (loss_meter st)
          (batch_loss (token_loss (weights st) (batch_inputs_targets txt tgt))
                      label_mask)
          (Z.of_nat (length (tok txt))) = inr meter ->
        Qltb (rate it) 1 = true ->
        let grad := backward (weights st) (batch_inputs_targets txt tgt) label_mask in
        let tracked := track_importance grad (weights st) (imp_A st) (imp_B st) in
        let stepped := adam_step (opt st) (weights st) grad in
        prune_all (rate it) tracked.1 tracked.2 stepped.2 = inl e ->
        micro_batch it txt tgt st = inl e
        /\ forall hparams texts targets todo,
             iteration hparams texts targets it st = inl e ->
             train_loop hparams texts targets (S todo) it st = (Raised it e, st)).
Proof.
  intros Hrt.
  split; [by apply k_of_zero_iff|].
  split; [by apply k_of_zero_iff|].
  split; [|split; [|split; [|split; [|split]]]].
  - intros Hk. unfold prune_B, kthvalue. by rewrite Hk.
  - intros Hk. unfold prune_A, kthvalue. by rewrite Hk.
  - intros res. unfold prune_B, kthvalue.
    destruct (Z.leb_spec 1 (k_of (shape0 imp) rt)); [done|]. simpl. done.
  - intros res. unfold prune_A, kthvalue.
    destruct (Z.leb_spec 1 (k_of (shape1 imp) rt)); [done|]. simpl. done.
  - intros n iA iB before after Hn HiB Hk Hbefore.
    induction Hbefore as [|[m q] before [q' Hq] _ IH]; simpl.
    + unfold prune_param. rewrite Hn, HiB. unfold prune_B, kthvalue.
      by rewrite Hk.
    + simpl in Hq. rewrite Hq. simpl. by rewrite IH.
  - intros it txt tgt st label_mask meter e Hmask Hupd Hrate.
    split; [by apply (micro_batch_prune_error it txt tgt st label_mask meter)|].
    intros hparams texts targets todo Hit. simpl. by rewrite Hit.
Qed.

(** With an adapter of dimension 4 the run of the small provider is
    aborted at iteration 4, the first one whose rate is below 1. *)
Lemma prune_rank_zero_raises_witness :
  k_of (shape0 column_imp) (rate 4) = 0%Z
  /\ prune_B column_imp column_p (rate 4) = inl k_out_of_range
  /\ run_result_of
       (@execute_roselora (toy (1 # 20) 4) toy_store toy_model 3%nat
          (toy_hparams 30 "lora") false)
     = TrainingFailed 4 k_out_of_range.
Proof.
  destruct (@prune_rank_zero_raises (toy (1 # 20) 4) column_imp column_p (rate 4))
    as (_ & _ & HB & _); [by vm_compute|].
  split; [reflexivity|]. split; [apply HB; reflexivity | by vm_compute].
Defined.

(** ** The requests are copied before they are rewritten *)

Section Requests.

Implicit Types (s : store) (items ls : list loc) (memo : gmap loc loc)
  (request l : loc).

(** Copying extends the store and returns locations that are new with
    respect to [base], as long as the memo table does. *)
Lemma deepcopy_items_above (base : nat) s memo items s' ls :
  (base <= length s)%nat ->
  (forall l l', memo !! l = Some l' -> (base <= l')%nat) ->
  deepcopy_items s memo items = inr (s', ls) ->
  take (length s) s' = s /\ above base ls.
Proof.
  revert s memo s' ls.
  induction items as [|l rest IH]; intros s memo s' ls Hbase Hmemo; simpl.
  - intros [= <- <-]. split; [apply firstn_all | constructor].
  - destruct (memo !! l) as [l'|] eqn:Hl.
    + destruct (deepcopy_items s memo rest) as [e|[s1 ls1]] eqn:Hrest;
        simpl; [done|].
      intros [= <- <-].
      destruct (IH s memo s1 ls1 Hbase Hmemo Hrest) as [Htake Habove].
      split; [done|]. constructor; [by eapply Hmemo | done].
    + destruct (s !! l) as [[?|d]|]; try done.
      unfold alloc.
      destruct (deepcopy_items (s ++ _) _ rest)
        as [e|[s1 ls1]] eqn:Hrest; simpl; [done|].
      intros [= <- <-].
      apply IH in Hrest as [Htake Habove]; cycle 1.
      { rewrite length_app. simpl. lia. }
      { intros l1 l1'. rewrite lookup_insert.
        case_decide; [intros [= <-]; lia | apply Hmemo]. }
      split; [|by constructor].
      rewrite length_app in Htake. simpl in Htake.
      assert (take (length s) (take (length s + 1) s1) = take (length s) s1)
        as <- by (rewrite take_take; f_equal; lia).
      rewrite Htake. by rewrite take_app_length.
Qed.

Lemma prepend_space_take (base : nat) s request s' :
  (base <= request)%nat ->
  prepend_space s request = inr s' -> take base s' = take base s.
Proof.
  intros Hbase. unfold prepend_space.
  destruct (s !! request) as [[?|d]|]; try done.
  destruct (d !! "target_new") as [t|]; [|done].
  destruct (String.eqb t space); intros [= <-]; [done|].
  by apply take_insert_ge.
Qed.

Lemma preprocess_take (base : nat) s items :
  above base items -> take base (preprocess s items).1 = take base s.
Proof.
  intros Habove. revert s.
  induction Habove as [|request rest Hreq _ IH]; intros s; simpl; [done|].
  destruct (prepend_space s request) as [e|s1] eqn:Hstep; [done|].
  rewrite IH. by eapply prepend_space_take.
Qed.

Lemma prepare_requests_take s (requests : loc) :
  take (length s) (prepare_requests s requests).1 = s.
Proof.
  unfold prepare_requests, deepcopy.
  destruct (s !! requests) as [[items|?]|]; try apply firstn_all.
  destruct (deepcopy_items s ∅ items) as [e|[s1 ls]] eqn:Hcopy; simpl;
    [apply firstn_all|].
  destruct (deepcopy_items_above (length s) s ∅ items s1 ls) as [Htake Habove];
    [lia | by intros l l'; rewrite lookup_empty | done |].
  assert (Hlen : (length s <= length s1)%nat).
  { rewrite <- Htake at 1. rewrite length_take. lia. }
  unfold list_items. rewrite lookup_app_r by lia.
  rewrite Nat.sub_diag. simpl.
  destruct (preprocess (s1 ++ [OList ls]) ls) as [s2 [e|]] eqn:Hpre;
    simpl;
    (replace s2 with (preprocess (s1 ++ [OList ls]) ls).1 by (by rewrite Hpre));
    rewrite (preprocess_take (length s)) by done;
    by rewrite take_app_le.
Qed.

End Requests.

(** C9.  [execute_roselora] works on a deep copy of the requests: every
    object of the caller's store, the request list and the request
    dictionaries among them, is the same after the call, whatever the
    outcome of the call. *)
Theorem requests_not_mutated `{Provider} (s : store) (model : Model)
    (requests : loc) (hparams : HyperParams) (keep_original_weight : bool) :
  take (length s)
       (run_store (execute_roselora s model requests hparams keep_original_weight))
  = s.
Proof.
  unfold execute_roselora.
  destruct (String.eqb (lora_type hparams) "lora"); [|apply firstn_all].
  pose proof (prepare_requests_take s requests) as Htake.
  destruct (prepare_requests s requests) as [s' [e|[texts targets]]];
    simpl in *; [done|].
  by destruct (train_loop _ _ _ _ _ _) as [[it| |it e] st'].
Qed.

(** ** The leading-space rule *)

Section LeadingSpace.

Implicit Types (s pre post : store) (items ls : list loc)
  (memo : gmap loc loc) (request l : loc) (d : gmap string string)
  (ds : list (gmap string string)) (t : string).

Lemma leading_space_prepends t :
  leading_space t = String.append space t <-> t <> space.
Proof.
  unfold leading_space. destruct (String.eqb_spec t space) as [->|Hne].
  - split; [discriminate | done].
  - split; [done | reflexivity].
Qed.

Lemma leading_space_first t : String.get 0 (leading_space t) = Some Ascii.Space.
Proof.
  unfold leading_space. destruct (String.eqb_spec t space) as [->|Hne];
    reflexivity.
Qed.

Lemma stored_dict_target d t :
  d !! "target_new" = Some t ->
  stored_dict d !! "target_new" = Some (leading_space t).
Proof.
  intros Ht. unfold stored_dict, leading_space. rewrite Ht.
  destruct (String.eqb t space); [done|]. by rewrite lookup_insert_eq.
Qed.

Lemma stored_dict_other d (key : string) :
  key <> "target_new"%string -> stored_dict d !! key = d !! key.
Proof.
  intros Hne. unfold stored_dict.
  destruct (d !! "target_new") as [t|]; [|done].
  destruct (String.eqb t space); [done|]. by rewrite lookup_insert_ne.
Qed.

(** Distinct dictionaries are copied one by one to the end of the
    store. *)
Lemma deepcopy_items_fresh s memo items ds :
  NoDup items ->
  Forall (fun l => memo !! l = None) items ->
  Forall2 (fun l d => s !! l = Some (ODict d)) items ds ->
  deepcopy_items s memo items
  = inr (s ++ (ODict <$> ds), seq (length s) (length items)).
Proof.
  intros Hnd Hmemo Hds. revert s memo Hnd Hmemo Hds.
  revert ds. induction items as [|l rest IH]; intros ds s memo Hnd Hmemo Hds.
  - apply Forall2_nil_inv_l in Hds as ->. simpl. by rewrite app_nil_r.
  - apply Forall2_cons_inv_l in Hds as (d & ds' & Hl & Hds & ->).
    apply NoDup_cons in Hnd as [Hl_rest Hnd].
    apply Forall_cons in Hmemo as [Hml Hmemo].
    simpl. rewrite Hml, Hl. unfold alloc.
    rewrite (IH ds' (s ++ [ODict d])); [| done | |].
    + simpl. rewrite length_app. simpl.
      rewrite <- app_assoc. simpl.
      by replace (length s + 1)%nat with (S (length s)) by lia.
    + rewrite Forall_forall in Hmemo |- *. intros l2 Hl2.
      rewrite lookup_insert_ne; [by apply Hmemo|].
      intros ->. by apply Hl_rest.
    + eapply Forall2_impl; [exact Hds|]. intros l2 d2 Hl2.
      by apply lookup_app_l_Some.
Qed.

(** The loop rewrites a block of dictionaries in place. *)
Lemma preprocess_block pre ds post :
  Forall (fun d => is_Some (d !! "target_new")) ds ->
  preprocess (pre ++ (ODict <$> ds) ++ post) (seq (length pre) (length ds))
  = (pre ++ (ODict <$> (stored_dict <$> ds)) ++ post, None).
Proof.
  intros Hds. revert pre.
  induction Hds as [|d ds [t Ht] _ IH]; intros pre; simpl; [done|].
  unfold prepend_space. rewrite list_lookup_middle by done.
  rewrite Ht. unfold stored_dict at 1. rewrite Ht.
  destruct (String.eqb t space).
  - specialize (IH (pre ++ [ODict d])).
    rewrite length_app in IH. simpl in IH.
    replace (length pre + 1)%nat with (S (length pre)) in IH by lia.
    rewrite <- !app_assoc in IH. simpl in IH. exact IH.
  - rewrite insert_app_r_alt by done. rewrite Nat.sub_diag. simpl.
    specialize (IH (pre ++ [ODict (<["target_new":=String.append space t]> d)])).
    rewrite length_app in IH. simpl in IH.
    replace (length pre + 1)%nat with (S (length pre)) in IH by lia.
    rewrite <- !app_assoc in IH. simpl in IH. exact IH.
Qed.

Lemma collect_block pre ds post (key : string) (vs : list string) :
  Forall2 (fun d v => d !! key = Some v) ds vs ->
  collect (pre ++ (ODict <$> ds) ++ post) key (seq (length pre) (length ds))
  = inr vs.
Proof.
  intros Hds. revert pre.
  induction Hds as [|d v ds vs Hd _ IH]; intros pre; csimpl; [done|].
  unfold getitem. rewrite list_lookup_middle by done. rewrite Hd. csimpl.
  specialize (IH (pre ++ [ODict d])).
  rewrite length_app in IH. simpl in IH.
  replace (length pre + 1)%nat with (S (length pre)) in IH by lia.
  rewrite <- !app_assoc in IH. csimpl in IH. by rewrite IH.
Qed.

(** One turn of the loop leaves the target of its request spaced and
    keeps the targets already spaced. *)
Lemma prepend_space_spaced s request s' :
  prepend_space s request = inr s' ->
  target_spaced s' request /\ (forall l, target_spaced s l -> target_spaced s' l).
Proof.
  unfold prepend_space.
  destruct (s !! request) as [[?|d]|] eqn:Hreq; try done.
  destruct (d !! "target_new") as [t|] eqn:Ht; [|done].
  destruct (String.eqb_spec t space) as [->|Hne]; intros [= <-].
  - split; [|done]. by exists d, space.
  - assert (Hlt : (request < length s)%nat) by (by eapply lookup_lt_Some).
    split.
    + exists (<["target_new":=String.append space t]> d), (String.append space t).
      rewrite list_lookup_insert_eq by done.
      by rewrite lookup_insert_eq.
    + intros l (d' & t' & Hl & Ht' & Hget).
      destruct (decide (l = request)) as [->|Hl_ne].
      * exists (<["target_new":=String.append space t]> d), (String.append space t).
        rewrite list_lookup_insert_eq by done.
        by rewrite lookup_insert_eq.
      * exists d', t'. by rewrite list_lookup_insert_ne.
Qed.

Lemma preprocess_spaced s items s' :
  preprocess s items = (s', None) ->
  Forall (target_spaced s') items
  /\ (forall l, target_spaced s l -> target_spaced s' l).
Proof.
  revert s. induction items as [|request rest IH]; intros s; simpl.
  - intros [= <-]. by split.
  - destruct (prepend_space s request) as [e|s1] eqn:Hstep; [done|].
    intros Hrest.
    destruct (prepend_space_spaced s request s1 Hstep) as [Hreq Hkeep].
    destruct (IH s1 Hrest) as [Hall Hkeep'].
    split; [constructor; auto | auto].
Qed.

Lemma collect_spaced s items (targets : list string) :
  Forall (target_spaced s) items ->
  collect s "target_new" items = inr targets ->
  Forall (fun t => String.get 0 t = Some Ascii.Space) targets.
Proof.
  intros Hall. revert targets.
  induction Hall as [|l rest (d & t & Hl & Ht & Hget) _ IH]; intros targets; simpl.
  - by intros [= <-].
  - unfold getitem. rewrite Hl, Ht. simpl.
    destruct (collect s "target_new" rest) as [e|vs]; simpl; [done|].
    intros [= <-]. constructor; [done | by apply IH].
Qed.

(** Whatever the request list, the targets handed to the training loop
    start with a space. *)
Lemma prepare_requests_spaced s (requests : loc) (texts targets : list string) :
  (prepare_requests s requests).2 = inr (texts, targets) ->
  Forall (fun t => String.get 0 t = Some Ascii.Space) targets.
Proof.
  unfold prepare_requests.
  destruct (deepcopy s requests) as [e|[s1 copy]]; [done|].
  destruct (list_items s1 copy) as [e|items]; [done|].
  destruct (preprocess s1 items) as [s2 [e|]] eqn:Hpre; [done|].
  simpl.
  destruct (collect s2 "prompt" items) as [e|ps]; simpl; [done|].
  destruct (collect s2 "target_new" items) as [e|ts] eqn:Hts; simpl; [done|].
  intros [= <- <-].
  destruct (preprocess_spaced s1 items s2 Hpre) as [Hall _].
  by eapply collect_spaced.
Qed.

End LeadingSpace.

(** C5 (as amended).  For a request list of distinct dictionaries, each
    with a prompt and a target, the preprocessing stores the prompts as
    they are and, for every target [t], the target [leading_space t]:
    exactly one space is prepended if and only if [t] is not the single
    space, which is left unchanged; and whatever the request list, every
    target stored by the preprocessing starts with a space. *)
Theorem leading_space_rule (s : store) (requests : loc) :
  (forall (items : list loc) (ds : list (gmap string string))
          (pts : list (string * string)),
      s !! requests = Some (OList items) ->
      NoDup items ->
      Forall2 (fun (l : loc) d => s !! l = Some (ODict d)) items ds ->
      Forall2 (fun (d : gmap string string) pt =>
                 d !! "prompt" = Some pt.1 /\ d !! "target_new" = Some pt.2)
              ds pts ->
      (prepare_requests s requests).2
      = inr (pts.*1, leading_space <$> pts.*2))
  /\ (forall t, leading_space t = String.append space t <-> t <> space)
  /\ leading_space space = space
  /\ (forall t, String.get 0 (leading_space t) = Some Ascii.Space)
  /\ (forall texts targets,
        (prepare_requests s requests).2 = inr (texts, targets) ->
        Forall (fun t => String.get 0 t = Some Ascii.Space) targets).
Proof.
  split; [|split; [apply leading_space_prepends
                  |split; [reflexivity
                          |split; [apply leading_space_first
                                  |apply prepare_requests_spaced]]]].
  intros items ds pts Hreq Hnd Hitems Hds.
  unfold prepare_requests, deepcopy. rewrite Hreq.
  rewrite (deepcopy_items_fresh s ∅ items ds Hnd); [|  | done]; last first.
  { rewrite Forall_forall. intros l _. apply lookup_empty. }
  simpl. unfold list_items.
  rewrite list_lookup_middle by done.
  rewrite (Forall2_length _ _ _ Hitems).
  rewrite <- app_assoc.
  rewrite preprocess_block; last first.
  { eapply Forall2_Forall_l; [exact Hds|].
    rewrite Forall_forall. intros pt _ d [_ Ht]. by eexists. }
  simpl.
  rewrite <- (length_fmap stored_dict ds).
  rewrite (collect_block s (stored_dict <$> ds) _ "prompt" pts.*1); last first.
  { apply Forall2_fmap. eapply Forall2_impl; [exact Hds|].
    intros d pt [Hp _]. simpl. by rewrite stored_dict_other. }
  rewrite (collect_block s (stored_dict <$> ds) _ "target_new"
             (leading_space <$> pts.*2)); last first.
  { rewrite <- list_fmap_compose. apply Forall2_fmap.
    eapply Forall2_impl; [exact Hds|].
    intros d pt [_ Ht]. simpl. by apply stored_dict_target. }
  reflexivity.
Qed.

Lemma leading_space_rule_witness :
  (prepare_requests toy_store 3).2
  = inr (["The capital of France is"; "A"; "B"]%string,
         [" Paris"; " "; " "]%string).
Proof.
  destruct (leading_space_rule toy_store 3) as [Hrun _].
  apply (Hrun [0; 1; 2]%nat
              [<["prompt"%string := "The capital of France is"%string]>
                 (<["target_new"%string := "Paris"%string]> ∅);
               <["prompt"%string := "A"%string]>
                 (<["target_new"%string := " "%string]> ∅);
               <["prompt"%string := "B"%string]>
                 (<["target_new"%string := ""%string]> ∅)]
              [("The capital of France is", "Paris"); ("A", " "); ("B", "")]%string).
  - reflexivity.
  - apply (bool_decide_unpack _). by vm_compute.
  - repeat constructor.
  - repeat constructor.
Defined.

(** C5 as stated fails: an empty target and a target of two spaces are
    neither non-empty nor other than whitespace, and both get a space
    prepended. *)
Lemma leading_space_counterexample :
  prepend_space [toy_request "B" ""] 0 = inr [toy_request "B" " "]
  /\ prepend_space [toy_request "B" "  "] 0 = inr [toy_request "B" "   "]
  /\ (prepare_requests toy_store 3).2
     = inr (["The capital of France is"; "A"; "B"]%string,
            [" Paris"; " "; " "]%string).
Proof.
  split; [|split]; by vm_compute.
Qed.

(** ** Unsupported adapter types *)

(** What the code does with a [lora_type] other than ["lora"]: the call
    fails with [NotImplementedError] before the adapter wrapper, the
    tokenizer, the optimizer or any training step is reached, and the
    object store is untouched.  At that point the model object has been
    through the four opening statements: its parameters, adapter
    configuration and parallelism flags are those of the caller, while
    output caching is off and gradient checkpointing and input gradients
    are on. *)
Theorem unsupported_lora_type `{Provider} (s : store) (model : Model)
    (requests : loc) (hparams : HyperParams) (keep_original_weight : bool) :
  lora_type hparams <> "lora"%string ->
  let run := execute_roselora s model requests hparams keep_original_weight in
  run_result_of run = Failed NotImplementedError (prepare model)
  /\ run_log run = []
  /\ run_store run = s
  /\ named_parameters (prepare model) = named_parameters model
  /\ peft_config (prepare model) = peft_config model
  /\ is_parallelizable (prepare model) = is_parallelizable model
  /\ model_parallel (prepare model) = model_parallel model
  /\ use_cache (prepare model) = false
  /\ supports_gradient_checkpointing (prepare model) = true
  /\ gradient_checkpointing (prepare model) = true
  /\ input_require_grads (prepare model) = true.
Proof.
  intros Htype. cbv zeta. unfold execute_roselora.
  apply String.eqb_neq in Htype. rewrite Htype. simpl. repeat split.
Qed.

Lemma unsupported_lora_type_witness :
  run_result_of
    (@execute_roselora (toy (1 # 2) 8) toy_store toy_model 3%nat
       (toy_hparams 30 "adalora") false)
  = Failed NotImplementedError (@prepare toy_model)
  /\ run_log
       (@execute_roselora (toy (1 # 2) 8) toy_store toy_model 3%nat
          (toy_hparams 30 "adalora") false) = [].
Proof.
  destruct (@unsupported_lora_type (toy (1 # 2) 8) toy_store toy_model 3%nat
              (toy_hparams 30 "adalora") false) as (Hres & Hlog & _).
  - discriminate.
  - split; [exact Hres | exact Hlog].
Defined.

(** C4 fails on the code.  The docstring of [execute_roselora] gives the
    invariant that the model at the end of the function is the model at
    its beginning, and C4 says that no field of the model has changed
    when an unsupported [lora_type] is refused.  The test of
    [lora_type] comes after the four opening statements: the model that
    had output caching on and gradient checkpointing off when the call
    was made has caching off and checkpointing on when the error is
    raised. *)
Lemma unsupported_lora_type_mutates_model :
  exists m,
    run_result_of
      (@execute_roselora (toy (1 # 2) 8) toy_store toy_model 3%nat
         (toy_hparams 30 "adalora") false)
    = Failed NotImplementedError m
    /\ m <> toy_model
    /\ use_cache toy_model = true /\ use_cache m = false
    /\ gradient_checkpointing toy_model = false
    /\ gradient_checkpointing m = true.
Proof.
  exists (@prepare toy_model). split; [reflexivity|].
  split; [discriminate|]. repeat split.
Qed.

(** ** Leaving the loop *)

Section EarlyStop.

Context `{Provider}.
Variables (hparams : HyperParams) (texts targets : list string).
Variable st0 : TrainState.

Local Abbreviation after := (state_after hparams texts targets st0).
Local Abbreviation quiet := (no_stop_before hparams texts targets st0).

Lemma stop_now_iff (it : Z) (st : TrainState) :
  stop_now it st = true
  <-> (20 < it)%Z
      /\ flt (AverageMeter.avg (loss_meter st)) (Fin (1 # 10)) = true.
Proof.
  unfold stop_now, burnin_iter. rewrite andb_true_iff, Z.ltb_lt. done.
Qed.

Lemma state_after_error (k j : nat) (e : error) :
  after k = inl e -> (k <= j)%nat -> after j = inl e.
Proof.
  intros Hk. induction 1 as [|j _ IH]; [done|]. simpl. by rewrite IH.
Qed.

Lemma quiet_step (k : nat) (st : TrainState) :
  quiet k -> after (S k) = inr st -> stop_now (Z.of_nat k) st = false ->
  quiet (S k).
Proof.
  intros Hq Hst Hstop j sj Hj Hsj.
  destruct (decide (j = k)) as [->|Hne].
  - rewrite Hst in Hsj. by injection Hsj as <-.
  - apply Hq; [lia | done].
Qed.

(** The loop resumed after [k] quiet iterations. *)
Lemma train_loop_from (todo k : nat) (st : TrainState) :
  after k = inr st -> quiet k ->
  match train_loop hparams texts targets todo (Z.of_nat k) st with
  | (Break it, st') =>
      exists m, it = Z.of_nat m /\ (k <= m < k + todo)%nat
                /\ after (S m) = inr st' /\ stop_now it st' = true /\ quiet m
  | (Exhausted, st') => after (k + todo) = inr st' /\ quiet (k + todo)
  | (Raised it e, st') =>
      exists m, it = Z.of_nat m /\ (k <= m < k + todo)%nat
                /\ after m = inr st'
                /\ iteration hparams texts targets it st' = inl e /\ quiet m
  end.
Proof.
  revert k st. induction todo as [|todo IH]; intros k st Hst Hq; simpl.
  - by rewrite Nat.add_0_r.
  - destruct (iteration hparams texts targets (Z.of_nat k) st) as [e|st1] eqn:Hit.
    + exists k. repeat split; (done || lia).
    + assert (Hst1 : after (S k) = inr st1) by (simpl; by rewrite Hst).
      destruct (stop_now (Z.of_nat k) st1) eqn:Hstop.
      * exists k. repeat split; (done || lia).
      * replace (Z.of_nat k + 1)%Z with (Z.of_nat (S k)) by lia.
        specialize (IH (S k) st1 Hst1 (quiet_step k st1 Hq Hst1 Hstop)).
        destruct (train_loop hparams texts targets todo (Z.of_nat (S k)) st1)
          as [[it| |it e] st'].
        -- destruct IH as (m & -> & Hm & Hrest). exists m.
           split; [done|]. split; [lia | done].
        -- by replace (k + S todo)%nat with (S k + todo)%nat by lia.
        -- destruct IH as (m & -> & Hm & Hrest). exists m.
           split; [done|]. split; [lia | done].
Qed.

End EarlyStop.

(** C6.  The loop is left by [break] exactly at the first completed
    iteration [it] with [it > 20] whose running average loss is below
    0.1: a [break] at [it] means [it > 20], the average after iteration
    [it] is below 0.1, and no earlier iteration satisfied the test; when
    no completed iteration satisfies it the loop runs all [n] iterations;
    and whenever a completed iteration satisfies the test, the loop has
    left by [break] at or before it. *)
Theorem early_stop_spec `{Provider} (hparams : HyperParams)
    (texts targets : list string) (n : nat) (st0 : TrainState) :
  (forall it st,
      stop_now it st = true
      <-> (20 < it)%Z
          /\ flt (AverageMeter.avg (loss_meter st)) (Fin (1 # 10)) = true)
  /\ match train_loop hparams texts targets n 0 st0 with
     | (Break it, st') =>
         exists m, it = Z.of_nat m /\ (m < n)%nat /\ (20 < it)%Z
           /\ state_after hparams texts targets st0 (S m) = inr st'
           /\ flt (AverageMeter.avg (loss_meter st')) (Fin (1 # 10)) = true
           /\ no_stop_before hparams texts targets st0 m
     | (Exhausted, st') =>
         state_after hparams texts targets st0 n = inr st'
         /\ no_stop_before hparams texts targets st0 n
     | (Raised it e, st') =>
         exists m, it = Z.of_nat m /\ (m < n)%nat
           /\ state_after hparams texts targets st0 m = inr st'
           /\ iteration hparams texts targets it st' = inl e
           /\ no_stop_before hparams texts targets st0 m
     end
  /\ (forall m sm,
        (m < n)%nat ->
        state_after hparams texts targets st0 (S m) = inr sm ->
        stop_now (Z.of_nat m) sm = true ->
        exists m' st', (m' <= m)%nat
          /\ train_loop hparams texts targets n 0 st0 = (Break (Z.of_nat m'), st')).
Proof.
  assert (Hq0 : no_stop_before hparams texts targets st0 0)
    by (intros j sj Hj; lia).
  pose proof (train_loop_from hparams texts targets st0 n 0 st0 eq_refl Hq0)
    as Hrun.
  change (Z.of_nat 0) with 0%Z in Hrun.
  split; [apply stop_now_iff|]. split.
  - destruct (train_loop hparams texts targets n 0 st0) as [[it| |it e] st'].
    + destruct Hrun as (m & -> & Hm & Hst & Hstop & Hq).
      apply stop_now_iff in Hstop as [Hit Havg].
      exists m. repeat split; (done || lia).
    + done.
    + destruct Hrun as (m & -> & Hm & Hst & Hit & Hq).
      exists m. repeat split; (done || lia).
  - intros m sm Hm Hsm Hstop.
    destruct (train_loop hparams texts targets n 0 st0) as [[it| |it e] st'].
    + destruct Hrun as (m' & -> & Hm' & Hst & _ & Hq).
      exists m', st'. split; [|done].
      destruct (Nat.le_gt_cases m' m) as [|Hlt]; [done|].
      specialize (Hq m sm Hlt Hsm). congruence.
    + destruct Hrun as [_ Hq]. specialize (Hq m sm Hm Hsm). congruence.
    + destruct Hrun as (m' & -> & Hm' & Hst & Hit & Hq).
      destruct (Nat.le_gt_cases m' m) as [Hle|Hlt].
      * assert (Herr : state_after hparams texts targets st0 (S m') = inl e)
          by (simpl; by rewrite Hst).
        rewrite (state_after_error hparams texts targets st0 (S m') (S m) e Herr)
          in Hsm by lia.
        discriminate.
      * specialize (Hq m sm Hlt Hsm). congruence.
Qed.

Lemma early_stop_spec_witness :
  exists m' st',
    (m' <= 21)%nat
    /\ @train_loop (toy (1 # 20) 8) (toy_hparams 30 "lora") ["A"%string]
         [" "%string] 30 0 (toy_state 0 (1 # 20))
       = (Break (Z.of_nat m'), st').
Proof.
  set (sm := match @state_after (toy (1 # 20) 8) (toy_hparams 30 "lora")
                     ["A"%string] [" "%string] (toy_state 0 (1 # 20)) 22 with
             | inr s => s
             | inl _ => toy_state 0 (1 # 20)
             end).
  destruct (@early_stop_spec (toy (1 # 20) 8) (toy_hparams 30 "lora")
              ["A"%string] [" "%string] 30 (toy_state 0 (1 # 20)))
    as (_ & _ & Hconv).
  apply (Hconv 21%nat sm).
  - lia.
  - by vm_compute.
  - by vm_compute.
Defined.

(** With an empty request list no micro-batch runs, [rate] is never
    bound, and the progress-bar description of iteration 0 raises. *)
Example empty_requests_raise :
  run_result_of
    (@execute_roselora (toy (1 # 2) 8) [OList []] toy_model 0%nat
       (toy_hparams 5 "lora") false)
  = TrainingFailed 0 (NameError "rate").
Proof. reflexivity. Qed.

(** ** The masked mean *)

Section MaskedMean.

Lemma count_true_replicate_false (n : nat) :
  count_true (replicate n false) = 0%nat.
Proof. unfold count_true. induction n as [|n IH]; simpl; done. Qed.

(** A prompt as long as the padded sequence leaves no target token. *)
Lemma label_mask_row_full (prompt_target_len : nat) :
  count_true (tail (label_mask_row prompt_target_len prompt_target_len)) = 0%nat.
Proof.
  unfold label_mask_row. rewrite Nat.sub_diag. simpl. rewrite app_nil_r.
  destruct prompt_target_len as [|n]; simpl; [done|].
  apply count_true_replicate_false.
Qed.

Lemma masked_sum_none (loss_row : list Q) (mask_row : list bool) :
  count_true (tail mask_row) = 0%nat ->
  Qeq_bool (masked_sum loss_row mask_row) 0 = true.
Proof.
  unfold masked_sum, count_true. generalize (tail mask_row) as m.
  intros m. revert loss_row. induction m as [|b m IH]; intros loss_row Hm.
  - by destruct loss_row.
  - simpl in Hm. destruct b; simpl in Hm; [lia|].
    destruct loss_row as [|x loss_row]; simpl; [done|].
    specialize (IH loss_row Hm). apply Qeq_bool_iff in IH.
    apply Qeq_bool_iff. unfold Qsum in IH. rewrite IH. reflexivity.
Qed.

(** No token selected: the divisor is zero and the quotient is not a
    number. *)
Lemma example_loss_nan (loss_row : list Q) (mask_row : list bool) :
  count_true (tail mask_row) = 0%nat ->
  mask_count mask_row = 0%Q /\ example_loss loss_row mask_row = NaN.
Proof.
  intros Hm. unfold example_loss, mask_count. rewrite Hm. split; [done|].
  simpl. by rewrite masked_sum_none.
Qed.

Lemma fsum_nan (l : list fval) : NaN ∈ l -> fsum l = NaN.
Proof.
  unfold fsum. induction l as [|x l IH]; intros Hin.
  - by apply elem_of_nil in Hin.
  - simpl. apply elem_of_cons in Hin as [<-|Hin]; [done|].
    rewrite IH by done. by destruct x.
Qed.

Lemma fmean_nan (l : list fval) : NaN ∈ l -> fmean l = NaN.
Proof. intros Hin. unfold fmean. by rewrite fsum_nan. Qed.

(** Prompt lengths within the padded length give rows of that length:
    the mask is built and fits the loss. *)
Lemma make_label_mask_fits (prompt_target_len : nat) (prompt_len : list nat) :
  Forall (fun len => (len <= prompt_target_len)%nat) prompt_len ->
  prompt_len <> [] ->
  make_label_mask prompt_target_len prompt_len
  = inr (map (label_mask_row prompt_target_len) prompt_len).
Proof.
  intros Hall Hne.
  assert (Hlen : forall row,
             In row (map (label_mask_row prompt_target_len) prompt_len) ->
             length row = prompt_target_len).
  { intros row Hin. apply in_map_iff in Hin as (len & <- & Hin).
    unfold label_mask_row. rewrite length_app, !length_replicate.
    rewrite Forall_forall in Hall.
    specialize (Hall len ltac:(by apply list_elem_of_In)). simpl in Hall. lia. }
  assert (Hwidth : length (hd [] (map (label_mask_row prompt_target_len) prompt_len))
                   = prompt_target_len).
  { destruct prompt_len as [|len rest]; [done|]. apply Hlen. by left. }
  unfold make_label_mask. cbv zeta. rewrite Hwidth.
  replace (forallb _ _) with true.
  - simpl. by rewrite Nat.eqb_refl.
  - symmetry. apply forallb_forall. intros row Hin.
    apply Nat.eqb_eq. by apply Hlen.
Qed.

End MaskedMean.

(** C7.  The per-example mean is an unguarded division.  For a batch in
    which the prompt of example [i] is as long as the padded sequence
    (its target contributes no token), the label mask is built without
    any failure, the shifted mask of example [i] selects no token, the
    divisor of its mean is zero, the quotient is not a number, and so is
    the loss of the batch. *)
Theorem masked_mean_unguarded (loss : list (list Q)) (prompt_target_len : nat)
    (prompt_len : list nat) (i : nat) (loss_row : list Q) :
  Forall (fun len => (len <= prompt_target_len)%nat) prompt_len ->
  prompt_len !! i = Some prompt_target_len ->
  loss !! i = Some loss_row ->
  exists label_mask mask_row,
    make_label_mask prompt_target_len prompt_len = inr label_mask
    /\ label_mask !! i = Some mask_row
    /\ count_true (tail mask_row) = 0%nat
    /\ mask_count mask_row = 0%Q
    /\ example_loss loss_row mask_row = NaN
    /\ batch_loss loss label_mask = NaN.
Proof.
  intros Hall Hi Hloss.
  exists (map (label_mask_row prompt_target_len) prompt_len),
         (label_mask_row prompt_target_len prompt_target_len).
  assert (Hrow : map (label_mask_row prompt_target_len) prompt_len !! i
                 = Some (label_mask_row prompt_target_len prompt_target_len))
    by (by rewrite lookup_map, Hi).
  pose proof (label_mask_row_full prompt_target_len) as Hzero.
  destruct (example_loss_nan loss_row _ Hzero) as [Hcount Hnan].
  split.
  - apply make_label_mask_fits; [exact Hall|].
    intros ->. by rewrite lookup_nil in Hi.
  - repeat split; try done.
    unfold batch_loss. apply fmean_nan.
    apply list_elem_of_lookup. exists i.
    by rewrite lookup_zip_with, Hloss, Hrow, <- Hnan.
Qed.

(** With a padding token that also occurs in the target, one micro-batch
    of the small provider runs to its end with a running average that is
    not a number. *)
Lemma masked_mean_unguarded_witness :
  batch_loss [[1 # 2]]%Q [label_mask_row 2 2] = NaN
  /\ exists st',
       @micro_batch (toy_space_pad (1 # 2) 8) 0 ["A"%string] [" "%string]
         (toy_state 32 (1 # 2)) = inr st'
       /\ AverageMeter.avg (loss_meter st') = NaN.
Proof.
  split.
  - destruct (masked_mean_unguarded [[1 # 2]]%Q 2 [2%nat] 0 [1 # 2]%Q)
      as (label_mask & mask_row & Hmask & _ & _ & _ & _ & Hnan).
    + repeat constructor.
    + reflexivity.
    + reflexivity.
    + injection Hmask as <-. exact Hnan.
  - eexists. split; by vm_compute.
Defined.

(** * Further properties *)

(** ** [chunks], chunk by chunk *)

Section ChunksIndex.

Context {A : Type}.
Implicit Types (arr chunk : list A) (n : Z).

(** The first chunk is the first [n] elements, the others are the
    chunks of the rest. *)
Lemma chunks_go_unfold n arr chunk :
  (Z.of_nat (length chunk) < n)%Z -> chunk ++ arr <> [] ->
  chunks_go n chunk arr
  = take (Z.to_nat n) (chunk ++ arr)
      :: chunks_go n [] (drop (Z.to_nat n) (chunk ++ arr)).
Proof.
  revert chunk. induction arr as [|a arr IH]; intros chunk Hlt Hne; simpl.
  - rewrite app_nil_r in *.
    destruct (Nat.ltb_spec 0 (length chunk)) as [Hpos|Hpos];
      [|destruct chunk; [done | simpl in Hpos; lia]].
    rewrite take_ge, drop_ge by lia. done.
  - destruct (Z.eqb_spec (Z.of_nat (length (chunk ++ [a]))) n) as [E|E].
    + replace (chunk ++ a :: arr) with ((chunk ++ [a]) ++ arr)
        by (by rewrite <- app_assoc).
      rewrite take_app_length', drop_app_length' by lia. done.
    + rewrite IH.
      * by rewrite <- app_assoc.
      * rewrite length_app in *. simpl in *. lia.
      * by destruct chunk.
Qed.

Lemma chunks_unfold n arr :
  (1 <= n)%Z -> arr <> [] ->
  chunks arr n = take (Z.to_nat n) arr :: chunks (drop (Z.to_nat n) arr) n.
Proof.
  intros Hn Hne. unfold chunks.
  apply (chunks_go_unfold n arr []); [simpl; lia | done].
Qed.

Lemma chunks_lookup n arr i :
  (1 <= n)%Z ->
  chunks arr n !! i
  = if decide (i * Z.to_nat n < length arr)%nat
    then Some (take (Z.to_nat n) (drop (i * Z.to_nat n) arr))
    else None.
Proof.
  intros Hn. revert arr. induction i as [|i IH]; intros arr.
  - destruct arr as [|a arr]; [done|].
    rewrite chunks_unfold by done.
    rewrite decide_True by (simpl; lia). done.
  - destruct arr as [|a arr].
    + rewrite decide_False by (simpl; lia). done.
    + rewrite chunks_unfold by done.
      rewrite lookup_cons. rewrite IH.
      rewrite length_drop, drop_drop.
      replace (Z.to_nat n + i * Z.to_nat n)%nat with (S i * Z.to_nat n)%nat by lia.
      repeat case_decide; (done || lia).
Qed.

(** With a chunk size that is not positive no chunk is ever full. *)
Lemma chunks_go_nonpositive n arr chunk :
  (n <= 0)%Z ->
  chunks_go n chunk arr = if decide (chunk ++ arr = []) then [] else [chunk ++ arr].
Proof.
  intros Hn. revert chunk. induction arr as [|a arr IH]; intros chunk; simpl.
  - rewrite app_nil_r. destruct chunk; by case_decide.
  - destruct (Z.eqb_spec (Z.of_nat (length (chunk ++ [a]))) n) as [E|E].
    + rewrite length_app in E. simpl in E. lia.
    + rewrite IH. rewrite <- app_assoc. simpl.
      repeat case_decide; try done.
Qed.

End ChunksIndex.

(** X1.  For a chunk size [n >= 1], chunk number [i] of [chunks arr n] is
    the slice of [arr] of [n] elements (fewer at the end) that starts at
    index [i * n], and there is no chunk number [i] once [i * n] reaches
    the length of [arr]. *)
Theorem chunks_slices {A : Type} (arr : list A) (n : Z) (i : nat) :
  (1 <= n)%Z ->
  chunks arr n !! i
  = if decide (i * Z.to_nat n < length arr)%nat
    then Some (take (Z.to_nat n) (drop (i * Z.to_nat n) arr))
    else None.
Proof. apply chunks_lookup. Qed.

Lemma chunks_slices_witness :
  chunks [10; 20; 30; 40; 50]%Z 2 !! 2%nat = Some [50%Z].
Proof. apply (chunks_slices [10; 20; 30; 40; 50]%Z 2 2). lia. Defined.

(** X2.  With a chunk size of zero or less, [chunks] never yields inside
    the loop: a non-empty list comes out as one chunk, whatever its
    length, and the empty list as no chunk. *)
Theorem chunks_nonpositive {A : Type} (arr : list A) (n : Z) :
  (n <= 0)%Z ->
  chunks arr n = if decide (arr = []) then [] else [arr].
Proof. intros Hn. apply (chunks_go_nonpositive n arr [] Hn). Qed.

Lemma chunks_nonpositive_witness :
  chunks [1; 2; 3]%Z 0 = [[1; 2; 3]%Z].
Proof. apply (chunks_nonpositive [1; 2; 3]%Z 0). lia. Defined.

(** X3.  Prompts and targets are chunked in lockstep: for lists of the
    same length and [n >= 1], batch number [i] of the zipped chunks pairs
    the prompts and the targets of the same positions. *)
Theorem chunks_lockstep {A B : Type} (xs : list A) (ys : list B) (n : Z) (i : nat) :
  (1 <= n)%Z -> length xs = length ys ->
  zip (chunks xs n) (chunks ys n) !! i
  = if decide (i * Z.to_nat n < length xs)%nat
    then Some (take (Z.to_nat n) (drop (i * Z.to_nat n) xs),
               take (Z.to_nat n) (drop (i * Z.to_nat n) ys))
    else None.
Proof.
  intros Hn Hlen. rewrite lookup_zip_with.
  rewrite !chunks_lookup by done. rewrite <- Hlen.
  by case_decide.
Qed.

Lemma chunks_lockstep_witness :
  zip (chunks ["a"; "b"; "c"]%string 2) (chunks [1; 2; 3]%Z 2) !! 1%nat
  = Some (["c"%string], [3%Z]).
Proof.
  apply (chunks_lockstep ["a"; "b"; "c"]%string [1; 2; 3]%Z 2 1); [lia | done].
Defined.

(** ** The schedule over all iterations *)

Section ScheduleAll.

Local Open Scope Q_scope.

Lemma rate_full (it : Z) : (it < 3)%Z -> rate it = 1.
Proof.
  intros Hlt. unfold rate, full_iter.
  destruct (Z.ltb_spec it 3); [reflexivity | lia].
Qed.

Lemma rate_steady (it : Z) : (20 <= it)%Z -> rate it = sparsity.
Proof.
  intros Hge. unfold rate, full_iter, burnin_iter.
  destruct (Z.ltb_spec it 3); [lia|].
  destruct (Z.ltb_spec it 20); [lia|].
  by rewrite andb_false_r.
Qed.

Lemma rate_range (it : Z) : sparsity <= rate it /\ rate it <= 1.
Proof.
  destruct (Z.lt_ge_cases it 3) as [H3|H3].
  { rewrite rate_full by done. unfold sparsity. split; lra. }
  destruct (Z.lt_ge_cases it 20) as [H20|H20].
  - rewrite rate_anneal by lia.
    pose proof (anneal_base_range it ltac:(lia)) as [Hpos Hle].
    pose proof (cube_range _ (Qlt_le_weak _ _ Hpos) Hle) as [H0 H1].
    unfold sparsity. split; lra.
  - rewrite rate_steady by done. unfold sparsity. split; lra.
Qed.

Lemma rate_anneal_lt (it it' : Z) :
  (3 <= it)%Z -> (it < it')%Z -> (it' < 20)%Z -> rate it' < rate it.
Proof.
  intros Hlo Hlt Hhi. rewrite !rate_anneal by lia.
  pose proof (anneal_base_range it' ltac:(lia)) as [Hpos _].
  pose proof (anneal_base_decreasing it it' Hlt) as Hdec.
  pose proof (cube_lt _ _ (Qlt_le_weak _ _ Hpos) Hdec) as Hcube.
  unfold sparsity. lra.
Qed.

Lemma rate_nonincreasing (it it' : Z) : (it <= it')%Z -> rate it' <= rate it.
Proof.
  intros Hle.
  destruct (Z.lt_ge_cases it 3) as [H3|H3].
  { rewrite (rate_full it) by done. apply rate_range. }
  destruct (Z.lt_ge_cases it' 20) as [H20|H20].
  - destruct (Z.eq_dec it it') as [->|Hne]; [lra|].
    apply Qlt_le_weak, rate_anneal_lt; lia.
  - rewrite (rate_steady it') by done. apply rate_range.
Qed.

(** Pruning is switched on from iteration 4. *)
Lemma rate_below_one (it : Z) : rate it < 1 <-> (4 <= it)%Z.
Proof.
  split.
  - intros Hlt. destruct (Z.lt_ge_cases it 4) as [H4|H4]; [|done].
    exfalso. pose proof (rate_nonincreasing it 3 ltac:(lia)) as Hmono.
    assert (H3 : rate 3 == 1) by (by vm_compute). lra.
  - intros H4.
    assert (Hr4 : rate 4 < 1) by (by vm_compute).
    pose proof (rate_nonincreasing 4 it H4). lra.
Qed.

End ScheduleAll.

(** X4.  Over all iterations, not only the annealing ones, the rate
    stays within [0.05, 1] and never increases from one iteration to a
    later one. *)
Theorem rate_monotone_bounded (it it' : Z) :
  ((5 # 100) <= rate it)%Q /\ (rate it <= 1)%Q
  /\ ((it <= it')%Z -> (rate it' <= rate it)%Q).
Proof.
  destruct (rate_range it) as [Hlo Hhi].
  split; [exact Hlo|]. split; [exact Hhi|]. apply rate_nonincreasing.
Qed.

Lemma rate_monotone_bounded_witness : (rate 25 <= rate 7)%Q.
Proof. apply (rate_monotone_bounded 7 25). lia. Defined.

(** X5.  The test [rate < 1.0] that guards pruning holds exactly from
    iteration 4 on: iteration 3, the first of the annealing phase, still
    has rate 1 and is not pruned. *)
Theorem pruning_from_iteration_4 (it : Z) :
  Qltb (rate it) 1 = true <-> (4 <= it)%Z.
Proof. rewrite Qltb_lt. apply rate_below_one. Qed.

(** ** Dimensions for which the threshold exists *)

Section SafeDimension.

Local Open Scope Q_scope.

Lemma inject_nat_nonneg (size : nat) : 0 <= inject_Z (Z.of_nat size).
Proof. change 0 with (inject_Z 0). rewrite <- Zle_Qle. lia. Qed.

(** The rank grows with the dimension and as the rate falls. *)
Lemma k_of_mono (size size' : nat) (rt rt' : Q) :
  (size <= size')%nat -> rt' <= rt -> rt <= 1 ->
  (k_of size rt <= k_of size' rt')%Z.
Proof.
  intros Hsize Hrt H1. rewrite !k_of_floor by lra.
  apply Qfloor_resp_le.
  pose proof (inject_nat_nonneg size) as Hs.
  assert (Hss : inject_Z (Z.of_nat size) <= inject_Z (Z.of_nat size')).
  { rewrite <- Zle_Qle. lia. }
  apply Qle_trans with (inject_Z (Z.of_nat size) * (1 - rt')).
  - apply Qmult_le_l_weak || (rewrite !(Qmult_comm (inject_Z _));
      apply Qmult_le_compat_r; lra).
  - apply Qmult_le_compat_r; lra.
Qed.

Lemma k_of_rank_from_7 (size : nat) (it : Z) :
  (7 <= size)%nat -> (4 <= it)%Z ->
  (1 <= k_of size (rate it) <= Z.of_nat size)%Z.
Proof.
  intros Hsize Hit. destruct (rate_range it) as [Hlo Hhi].
  split.
  - change 1%Z with (k_of 7 (rate 4)).
    apply k_of_mono; [done | by apply rate_nonincreasing | by vm_compute].
  - apply k_of_le_size; [unfold sparsity in Hlo; lra | done].
Qed.

Lemma k_of_rank_upto_6 (size : nat) :
  (size <= 6)%nat -> k_of size (rate 4) = 0%Z.
Proof.
  intros Hsize.
  assert (Hle : (k_of size (rate 4) <= k_of 6 (rate 4))%Z).
  { apply k_of_mono; [done | lra | by vm_compute]. }
  change (k_of 6 (rate 4)) with 0%Z in Hle.
  pose proof (k_of_nonneg size (rate 4) ltac:(by vm_compute)). lia.
Qed.

End SafeDimension.

(** X6.  From iteration 4 on, the threshold selection of a role-B
    parameter with at least 7 rows, or of a role-A parameter with at
    least 7 columns, never raises; with 6 or fewer, the pruning of
    iteration 4, the first one that prunes, raises the runtime error. *)
Theorem threshold_dimension (imp p : tensor) (it : Z) :
  (4 <= it)%Z ->
  ((7 <= shape0 imp)%nat -> exists res, prune_B imp p (rate it) = inr res)
  /\ ((7 <= shape1 imp)%nat -> exists res, prune_A imp p (rate it) = inr res)
  /\ ((shape0 imp <= 6)%nat -> prune_B imp p (rate 4) = inl k_out_of_range)
  /\ ((shape1 imp <= 6)%nat -> prune_A imp p (rate 4) = inl k_out_of_range).
Proof.
  intros Hit. split; [|split; [|split]].
  - intros Hsize. pose proof (k_of_rank_from_7 _ it Hsize Hit) as [Hlo Hhi].
    unfold prune_B, kthvalue.
    destruct (Z.leb_spec 1 (k_of (shape0 imp) (rate it))); [|lia].
    destruct (Z.leb_spec (k_of (shape0 imp) (rate it)) (Z.of_nat (shape0 imp)));
      [|lia].
    simpl. by eexists.
  - intros Hsize. pose proof (k_of_rank_from_7 _ it Hsize Hit) as [Hlo Hhi].
    unfold prune_A, kthvalue.
    destruct (Z.leb_spec 1 (k_of (shape1 imp) (rate it))); [|lia].
    destruct (Z.leb_spec (k_of (shape1 imp) (rate it)) (Z.of_nat (shape1 imp)));
      [|lia].
    simpl. by eexists.
  - intros Hsize. unfold prune_B, kthvalue.
    by rewrite (k_of_rank_upto_6 _ Hsize).
  - intros Hsize. unfold prune_A, kthvalue.
    by rewrite (k_of_rank_upto_6 _ Hsize).
Qed.

Lemma threshold_dimension_witness :
  (exists res, prune_B (map (fun x => [x]) [1; 2; 3; 4; 5; 6; 7]%Q)
                 (map (fun x => [x]) [1; 2; 3; 4; 5; 6; 7]%Q) (rate 9) = inr res)
  /\ prune_B column_imp column_p (rate 4) = inl k_out_of_range.
Proof.
  destruct (threshold_dimension (map (fun x => [x]) [1; 2; 3; 4; 5; 6; 7]%Q)
              (map (fun x => [x]) [1; 2; 3; 4; 5; 6; 7]%Q) 9) as (HB & _);
    [lia|].
  destruct (threshold_dimension column_imp column_p 4) as (_ & _ & HB' & _);
    [lia|].
  split; [apply HB; simpl; lia | apply HB'; simpl; lia].
Defined.

(** ** What pruning keeps *)

Section PruneFrame.

Local Open Scope Q_scope.

Lemma clamp_within (t : tensor) :
  all_entries within_bound (clamp_ t (- clamp_bound) clamp_bound).
Proof.
  unfold all_entries, clamp_, tmap.
  rewrite Forall_forall. intros row Hrow.
  apply list_elem_of_In, in_map_iff in Hrow as (r & <- & _).
  rewrite Forall_forall. intros x Hx.
  apply list_elem_of_In, in_map_iff in Hx as (y & <- & _).
  apply clamp1_abs.
Qed.

Lemma prune_B_within (imp p res : tensor) (rt : Q) :
  prune_B imp p rt = inr res -> all_entries within_bound res.
Proof.
  unfold prune_B. destruct (kthvalue _ _ _) as [e|thr]; [done|].
  intros [= <-]. apply clamp_within.
Qed.

Lemma prune_A_within (imp p res : tensor) (rt : Q) :
  prune_A imp p rt = inr res -> all_entries within_bound res.
Proof.
  unfold prune_A. destruct (kthvalue _ _ _) as [e|thr]; [done|].
  intros [= <-]. apply clamp_within.
Qed.

Lemma prune_param_spec (rt : Q) (iA iB : gmap string tensor) (n : string)
    (p p' : tensor) :
  prune_param rt iA iB n p = inr p' ->
  (is_adapter n = false -> p' = p)
  /\ (is_adapter n = true -> all_entries within_bound p').
Proof.
  unfold prune_param, is_adapter.
  destruct (contains "lora_B" n) eqn:HB; rewrite ?orb_true_r, ?orb_false_r.
  - destruct (iB !! n) as [imp|]; [|done].
    destruct (prune_B imp p rt) as [e|p1] eqn:Hp1; [done|]. simpl.
    destruct (contains "lora_A" n) eqn:HA.
    + destruct (iA !! n) as [impA|]; [|done]. intros Hp'.
      split; [done|]. intros _. by eapply prune_A_within.
    + intros [= <-]. split; [done|]. intros _. by eapply prune_B_within.
  - simpl. destruct (contains "lora_A" n) eqn:HA.
    + destruct (iA !! n) as [impA|]; [|done]. intros Hp'.
      split; [done|]. intros _. by eapply prune_A_within.
    + intros [= <-]. split; [done | simpl; discriminate].
Qed.

Lemma prune_all_spec (rt : Q) (iA iB : gmap string tensor) (ps ps' : params) :
  prune_all rt iA iB ps = inr ps' ->
  Forall2 (fun np np' =>
             np'.1 = np.1
             /\ (is_adapter np.1 = false -> np'.2 = np.2)
             /\ (is_adapter np.1 = true -> all_entries within_bound np'.2))
          ps ps'.
Proof.
  revert ps'. induction ps as [|[n p] ps IH]; intros ps'; simpl.
  - intros [= <-]. constructor.
  - destruct (prune_param rt iA iB n p) as [e|p'] eqn:Hp; [done|]. simpl.
    destruct (prune_all rt iA iB ps) as [e|rest] eqn:Hrest; [done|]. simpl.
    intros [= <-]. constructor; [|by apply IH].
    simpl. split; [done|]. by apply (prune_param_spec rt iA iB).
Qed.

Lemma clamp1_idem (lo hi x : Q) :
  lo <= hi -> clamp1 lo hi (clamp1 lo hi x) = clamp1 lo hi x.
Proof.
  intros Hle.
  assert (Hll : Qltb lo lo = false) by (apply Qltb_ge; lra).
  assert (Hhl : Qltb hi lo = false) by (by apply Qltb_ge).
  assert (Hhh : Qltb hi hi = false) by (apply Qltb_ge; lra).
  unfold clamp1.
  destruct (Qltb x lo) eqn:E1; [by rewrite Hll, Hhl|].
  destruct (Qltb hi x) eqn:E2; [by rewrite Hhl, Hhh|].
  by rewrite E1, E2.
Qed.

Lemma fill_clamp_row_idem (lo hi : Q) (row : list Q) (m : list bool) :
  lo <= hi ->
  map (clamp1 lo hi)
    (zip_with (fun x (b : bool) => if b then 0 else x)
       (map (clamp1 lo hi) (zip_with (fun x (b : bool) => if b then 0 else x) row m))
       m)
  = map (clamp1 lo hi) (zip_with (fun x (b : bool) => if b then 0 else x) row m).
Proof.
  intros Hle. revert m. induction row as [|x row IH]; intros [|b m]; simpl; try done.
  rewrite IH. f_equal. destruct b; [done|]. by apply clamp1_idem.
Qed.

Lemma fill_clamp_idem (lo hi : Q) (p : tensor) (mask : list (list bool)) :
  lo <= hi ->
  clamp_ (masked_fill_ (clamp_ (masked_fill_ p mask 0) lo hi) mask 0) lo hi
  = clamp_ (masked_fill_ p mask 0) lo hi.
Proof.
  intros Hle. unfold clamp_, tmap, masked_fill_.
  revert mask. induction p as [|row p IH]; intros [|m mask]; simpl; try done.
  rewrite IH. f_equal. by apply fill_clamp_row_idem.
Qed.

(** Entry by entry: what the mask and the clamp write. *)
Lemma fill_clamp_writes (p : tensor) (mask : list (list bool)) :
  zeroed_or_clamped p (clamp_ (masked_fill_ p mask 0) (- clamp_bound) clamp_bound).
Proof.
  intros i j x'. unfold entry, clamp_, tmap, masked_fill_.
  rewrite lookup_map, lookup_zip_with.
  destruct (p !! i) as [row|]; [|done]. simpl.
  destruct (mask !! i) as [m|]; [|done]. simpl.
  rewrite lookup_map, lookup_zip_with.
  destruct (row !! j) as [x|]; [|done]. simpl.
  destruct (m !! j) as [b|]; [|done]. simpl.
  intros [= <-]. exists x. split; [done|].
  destruct b; [by left | by right].
Qed.

Lemma zeroed_or_clamped_trans (p p1 p2 : tensor) :
  zeroed_or_clamped p p1 -> zeroed_or_clamped p1 p2 -> zeroed_or_clamped p p2.
Proof.
  intros H1 H2 i j x2 Hx2.
  destruct (H2 i j x2 Hx2) as (x1 & Hx1 & Hx21).
  destruct (H1 i j x1 Hx1) as (x & Hx & Hx10).
  exists x. split; [done|].
  destruct Hx21 as [-> | ->]; [by left|].
  destruct Hx10 as [-> | ->]; [by left|].
  right. apply clamp1_idem. by vm_compute.
Qed.

Lemma prune_B_entries (imp p res : tensor) (rt : Q) :
  prune_B imp p rt = inr res -> zeroed_or_clamped p res.
Proof.
  unfold prune_B. destruct (kthvalue _ _ _) as [e|thr]; [done|].
  intros [= <-]. apply fill_clamp_writes.
Qed.

Lemma prune_A_entries (imp p res : tensor) (rt : Q) :
  prune_A imp p rt = inr res -> zeroed_or_clamped p res.
Proof.
  unfold prune_A. destruct (kthvalue _ _ _) as [e|thr]; [done|].
  intros [= <-]. apply fill_clamp_writes.
Qed.

Lemma prune_param_entries (rt : Q) (iA iB : gmap string tensor) (n : string)
    (p p' : tensor) :
  prune_param rt iA iB n p = inr p' ->
  is_adapter n = true -> zeroed_or_clamped p p'.
Proof.
  unfold prune_param, is_adapter.
  destruct (contains "lora_B" n) eqn:HB; rewrite ?orb_true_r, ?orb_false_r.
  - destruct (iB !! n) as [imp|]; [|done].
    destruct (prune_B imp p rt) as [e|p1] eqn:Hp1; [done|]. simpl.
    apply prune_B_entries in Hp1.
    destruct (contains "lora_A" n) eqn:HA.
    + destruct (iA !! n) as [impA|]; [|done]. intros Hp' _.
      apply prune_A_entries in Hp'. by eapply zeroed_or_clamped_trans.
    + by intros [= <-] _.
  - simpl. destruct (contains "lora_A" n) eqn:HA.
    + destruct (iA !! n) as [impA|]; [|done]. intros Hp' _.
      by eapply prune_A_entries.
    + by intros _ [=].
Qed.

Lemma prune_all_entries (rt : Q) (iA iB : gmap string tensor) (ps ps' : params) :
  prune_all rt iA iB ps = inr ps' ->
  Forall2 (fun np np' =>
             np'.1 = np.1
             /\ (is_adapter np.1 = false -> np'.2 = np.2)
             /\ (is_adapter np.1 = true -> zeroed_or_clamped np.2 np'.2))
          ps ps'.
Proof.
  revert ps'. induction ps as [|[n p] ps IH]; intros ps'; simpl.
  - intros [= <-]. constructor.
  - destruct (prune_param rt iA iB n p) as [e|p'] eqn:Hp; [done|]. simpl.
    destruct (prune_all rt iA iB ps) as [e|rest] eqn:Hrest; [done|]. simpl.
    intros [= <-]. constructor; [|by apply IH].
    simpl. split; [done|]. split.
    + by apply (prune_param_spec rt iA iB).
    + by apply (prune_param_entries rt iA iB).
Qed.

End PruneFrame.

(** X7.  The loop that prunes all parameters keeps their number, order
    and names.  It leaves the value of every parameter whose name
    carries neither adapter marker as it is.  In an adapter parameter it
    writes nothing but zeros and clamped values: every entry of the
    result is zero or the entry it replaces clamped to [-3e-3, 3e-3]. *)
Theorem prune_all_frame (rt : Q) (iA iB : gmap string tensor) (ps ps' : params) :
  prune_all rt iA iB ps = inr ps' ->
  ps'.*1 = ps.*1
  /\ (forall i n p p', ps !! i = Some (n, p) -> ps' !! i = Some (n, p') ->
        (is_adapter n = false -> p' = p)
        /\ (is_adapter n = true -> zeroed_or_clamped p p')).
Proof.
  intros Hall. apply prune_all_entries in Hall. split.
  - induction Hall as [|[n p] [n' p'] ps ps' (Hn & _) _ IH]; [done|].
    simpl in Hn. rewrite !fmap_cons. simpl. by rewrite Hn, IH.
  - intros i n p p' Hi Hi'.
    destruct (Forall2_lookup_lr _ _ _ i _ _ Hall Hi Hi') as (_ & Hf & Hb).
    simpl in *. split; [exact Hf | exact Hb].
Qed.

Lemma prune_all_frame_witness :
  exists ps',
    prune_all (rate 24) ∅ {["h.0.lora_B.weight"%string := column_imp]}
      [("h.0.attn.weight"%string, [[5]]%Q);
       ("h.0.lora_B.weight"%string, column_p)] = inr ps'
    /\ ps'.*1 = ["h.0.attn.weight"; "h.0.lora_B.weight"]%string.
Proof.
  destruct (prune_all (rate 24) ∅ {["h.0.lora_B.weight"%string := column_imp]}
              [("h.0.attn.weight"%string, [[5]]%Q);
               ("h.0.lora_B.weight"%string, column_p)]) as [e|ps'] eqn:E;
    [vm_compute in E; discriminate|].
  exists ps'. split; [reflexivity|].
  destruct (prune_all_frame _ _ _ _ _ E) as [Hnames _]. exact Hnames.
Defined.

(** X8.  Pruning a parameter a second time with the same importance
    scores and rate changes nothing: the result of [prune_B], and of
    [prune_A], is a fixed point of the same pruning. *)
Theorem prune_idempotent (imp p res : tensor) (rt : Q) :
  (prune_B imp p rt = inr res -> prune_B imp res rt = inr res)
  /\ (prune_A imp p rt = inr res -> prune_A imp res rt = inr res).
Proof.
  assert (Hle : (- clamp_bound <= clamp_bound)%Q) by (by vm_compute).
  split.
  - unfold prune_B. destruct (kthvalue _ _ _) as [e|thr]; [done|].
    intros [= <-]. by rewrite fill_clamp_idem.
  - unfold prune_A. destruct (kthvalue _ _ _) as [e|thr]; [done|].
    intros [= <-]. by rewrite fill_clamp_idem.
Qed.

Lemma prune_idempotent_witness :
  prune_B column_imp [[0]; [0]; [- clamp_bound]; [1 # 2000]]%Q (rate 25)
  = inr [[0]; [0]; [- clamp_bound]; [1 # 2000]]%Q.
Proof.
  apply (prune_idempotent column_imp column_p _ (rate 25)). reflexivity.
Defined.

(** ** Invariants of the importance scores *)

Section ScoreInvariants.

Local Open Scope Q_scope.

Lemma score_nonneg (g p : tensor) : all_entries (fun x => 0 <= x) (score g p).
Proof.
  unfold all_entries, score, tmap.
  rewrite Forall_forall. intros row Hrow.
  apply list_elem_of_In, in_map_iff in Hrow as (r & <- & _).
  rewrite Forall_forall. intros x Hx.
  apply list_elem_of_In, in_map_iff in Hx as (y & <- & _).
  apply Qabs_nonneg.
Qed.

Lemma ema_row_nonneg (old sc : list Q) :
  Forall (fun x => 0 <= x) old -> Forall (fun x => 0 <= x) sc ->
  Forall (fun x => 0 <= x)
    (zip_with Qplus (map (fun x => x * (8 # 10)) old)
                    (map (fun x => x * (2 # 10)) sc)).
Proof.
  intros Ho. revert sc. induction Ho as [|x old Hx _ IH]; intros sc Hs; simpl.
  - constructor.
  - destruct Hs as [|y sc Hy Hs]; simpl; constructor; [lra | by apply IH].
Qed.

Lemma ema_nonneg (old sc : tensor) :
  all_entries (fun x => 0 <= x) old -> all_entries (fun x => 0 <= x) sc ->
  all_entries (fun x => 0 <= x) (ema old sc).
Proof.
  unfold all_entries, ema, tmap, tmap2.
  intros Ho. revert sc. induction Ho as [|r old Hr _ IH]; intros sc Hs; simpl.
  - constructor.
  - destruct Hs as [|q sc Hq Hs]; simpl; constructor;
      [by apply ema_row_nonneg | by apply IH].
Qed.

Lemma update_imp_nonneg (marker : string) (imp : gmap string tensor)
    (n : string) (g p : tensor) :
  scores_nonneg imp -> scores_nonneg (update_imp marker imp n g p).
Proof.
  intros Himp. unfold update_imp.
  destruct (contains marker n); [|done].
  destruct (imp !! n) as [old|] eqn:Hold.
  - apply map_Forall_insert_2; [|done].
    apply ema_nonneg; [by apply (Himp n old) | apply score_nonneg].
  - apply map_Forall_insert_2; [apply score_nonneg | done].
Qed.

Lemma track_importance_nonneg (grad : string -> tensor) (ps : params)
    (iA iB : gmap string tensor) :
  scores_nonneg iA -> scores_nonneg iB ->
  scores_nonneg (track_importance grad ps iA iB).1
  /\ scores_nonneg (track_importance grad ps iA iB).2.
Proof.
  revert iA iB. induction ps as [|[n p] ps IH]; intros iA iB HA HB; simpl.
  - done.
  - apply IH; by apply update_imp_nonneg.
Qed.

(** A marked parameter has a score once it has been tracked. *)
Lemma update_imp_keeps (marker : string) (imp : gmap string tensor)
    (n m : string) (g p : tensor) :
  is_Some (imp !! n) -> is_Some (update_imp marker imp m g p !! n).
Proof.
  intros Hn. unfold update_imp.
  destruct (contains marker m); [|done].
  destruct (imp !! m);
    (destruct (decide (m = n)) as [->|Hne];
       [rewrite lookup_insert_eq; by eexists | by rewrite lookup_insert_ne]).
Qed.

Lemma track_importance_keeps (grad : string -> tensor) (ps : params)
    (iA iB : gmap string tensor) (n : string) :
  (is_Some (iA !! n) -> is_Some ((track_importance grad ps iA iB).1 !! n))
  /\ (is_Some (iB !! n) -> is_Some ((track_importance grad ps iA iB).2 !! n)).
Proof.
  revert iA iB. induction ps as [|[m p] ps IH]; intros iA iB; simpl; [done|].
  split; intros Hn; apply IH; by apply update_imp_keeps.
Qed.

Lemma track_importance_covers (grad : string -> tensor) (ps : params)
    (iA iB : gmap string tensor) (n : string) :
  n ∈ ps.*1 ->
  (contains "lora_A" n = true ->
     is_Some ((track_importance grad ps iA iB).1 !! n))
  /\ (contains "lora_B" n = true ->
     is_Some ((track_importance grad ps iA iB).2 !! n)).
Proof.
  revert iA iB. induction ps as [|[m p] ps IH]; intros iA iB Hin.
  - by apply elem_of_nil in Hin.
  - rewrite fmap_cons in Hin. simpl in Hin.
    apply elem_of_cons in Hin as [->|Hin]; [|by apply IH].
    simpl. split; intros Hm; apply track_importance_keeps;
      rewrite update_imp_marked by done; by eexists.
Qed.

Lemma prune_B_error (imp p : tensor) (rt : Q) (e : error) :
  prune_B imp p rt = inl e -> e = k_out_of_range.
Proof.
  unfold prune_B, kthvalue.
  destruct (_ && _); [done|]. by intros [= <-].
Qed.

Lemma prune_A_error (imp p : tensor) (rt : Q) (e : error) :
  prune_A imp p rt = inl e -> e = k_out_of_range.
Proof.
  unfold prune_A, kthvalue.
  destruct (_ && _); [done|]. by intros [= <-].
Qed.

Lemma prune_param_error (rt : Q) (iA iB : gmap string tensor) (n : string)
    (p : tensor) (e : error) :
  (contains "lora_A" n = true -> is_Some (iA !! n)) ->
  (contains "lora_B" n = true -> is_Some (iB !! n)) ->
  prune_param rt iA iB n p = inl e -> e = k_out_of_range.
Proof.
  intros HA HB. unfold prune_param.
  destruct (contains "lora_B" n) eqn:EB.
  - destruct (HB eq_refl) as [imp ->].
    destruct (prune_B imp p rt) as [e'|p1] eqn:Hp1; simpl.
    + intros [= <-]. by eapply prune_B_error.
    + destruct (contains "lora_A" n) eqn:EA; [|done].
      destruct (HA eq_refl) as [impA ->]. apply prune_A_error.
  - simpl. destruct (contains "lora_A" n) eqn:EA; [|done].
    destruct (HA eq_refl) as [impA ->]. apply prune_A_error.
Qed.

Lemma prune_all_error (rt : Q) (iA iB : gmap string tensor) (ps : params)
    (e : error) :
  Forall (fun np => (contains "lora_A" np.1 = true -> is_Some (iA !! np.1))
                    /\ (contains "lora_B" np.1 = true -> is_Some (iB !! np.1)))
         ps ->
  prune_all rt iA iB ps = inl e -> e = k_out_of_range.
Proof.
  induction 1 as [|[n p] ps [HA HB] _ IH]; simpl; [done|].
  destruct (prune_param rt iA iB n p) as [e'|p'] eqn:Hp; simpl.
  - intros [= <-]. by eapply prune_param_error.
  - destruct (prune_all rt iA iB ps) as [e'|rest]; simpl; [|done].
    intros [= <-]. by apply IH.
Qed.

End ScoreInvariants.

(** X9.  Importance scores never become negative: when the scores of
    both roles are non-negative before a micro-batch (as the empty maps
    of a starting run are), they are non-negative after it. *)
Theorem scores_stay_nonneg `{Provider} (it : Z) (txt tgt : list string)
    (st st' : TrainState) :
  micro_batch it txt tgt st = inr st' ->
  scores_nonneg (imp_A st) -> scores_nonneg (imp_B st) ->
  scores_nonneg (imp_A st') /\ scores_nonneg (imp_B st').
Proof.
  intros Hmb HA HB.
  destruct (micro_batch_inv it txt tgt st st' Hmb)
    as (label_mask & meter & ws' & _ & _ & Hrest).
  cbv zeta in Hrest. destruct Hrest as (_ & -> & -> & _).
  by apply track_importance_nonneg.
Qed.

Lemma scores_stay_nonneg_witness :
  exists st',
    @micro_batch (toy (1 # 2) 8) 0 ["A"%string] [" "%string] (toy_state 0 (1 # 2))
    = inr st'
    /\ scores_nonneg (imp_B st').
Proof.
  set (st' := match @micro_batch (toy (1 # 2) 8) 0 ["A"%string] [" "%string]
                      (toy_state 0 (1 # 2)) with
              | inr s => s
              | inl _ => toy_state 0 (1 # 2)
              end).
  assert (Hmb : @micro_batch (toy (1 # 2) 8) 0 ["A"%string] [" "%string]
                  (toy_state 0 (1 # 2)) = inr st') by (by vm_compute).
  exists st'. split; [exact Hmb|].
  apply (@scores_stay_nonneg (toy (1 # 2) 8) 0 ["A"%string] [" "%string]
           (toy_state 0 (1 # 2)) st' Hmb); apply map_Forall_empty.
Defined.

(** X10.  When the optimizer step keeps the parameter names, the
    pruning of a micro-batch never fails for want of an importance
    score: every marked parameter was scored after the backward pass, so
    the only error the pruning loop can raise is the rank error of
    [kthvalue]. *)
Theorem prune_only_rank_error (rt : Q) (grad : string -> tensor)
    (ps stepped : params) (iA iB : gmap string tensor) (e : error) :
  stepped.*1 = ps.*1 ->
  prune_all rt (track_importance grad ps iA iB).1
               (track_importance grad ps iA iB).2 stepped = inl e ->
  e = k_out_of_range.
Proof.
  intros Hnames. apply prune_all_error.
  rewrite Forall_forall. intros [n p] Hin. simpl.
  apply track_importance_covers. rewrite <- Hnames.
  apply list_elem_of_fmap. by exists (n, p).
Qed.

Lemma prune_only_rank_error_witness :
  prune_all (rate 4)
    (track_importance (fun _ => column_p)
       [("h.0.lora_B.weight"%string, column_p)] ∅ ∅).1
    (track_importance (fun _ => column_p)
       [("h.0.lora_B.weight"%string, column_p)] ∅ ∅).2
    [("h.0.lora_B.weight"%string, column_p)]
  = inl k_out_of_range.
Proof.
  destruct (prune_all (rate 4)
    (track_importance (fun _ => column_p)
       [("h.0.lora_B.weight"%string, column_p)] ∅ ∅).1
    (track_importance (fun _ => column_p)
       [("h.0.lora_B.weight"%string, column_p)] ∅ ∅).2
    [("h.0.lora_B.weight"%string, column_p)]) as [e|res] eqn:E.
  - f_equal. by apply (prune_only_rank_error _ _ _ _ _ _ e eq_refl E).
  - vm_compute in E. discriminate.
Defined.

(** ** Shared and malformed requests *)

Section RequestEdges.

Implicit Types (s pre post : store) (items ls : list loc)
  (request l : loc) (d : gmap string string)
  (ds : list (gmap string string)) (t : string).

(** The loop stops at the first dictionary without a target. *)
Lemma preprocess_block_missing pre ds post :
  Exists (fun d => d !! "target_new" = None) ds ->
  exists s', preprocess (pre ++ (ODict <$> ds) ++ post)
               (seq (length pre) (length ds))
             = (s', Some (KeyError "target_new")).
Proof.
  intros Hex. revert pre. induction ds as [|d ds IH]; intros pre.
  - by apply Exists_nil in Hex.
  - csimpl. unfold prepend_space. rewrite list_lookup_middle by done.
    destruct (d !! "target_new") as [t|] eqn:Ht; [|by eexists].
    apply Exists_cons in Hex as [Hd|Hex]; [congruence|].
    destruct (String.eqb t space).
    + specialize (IH Hex (pre ++ [ODict d])).
      rewrite length_app in IH. simpl in IH.
      replace (length pre + 1)%nat with (S (length pre)) in IH by lia.
      rewrite <- !app_assoc in IH. exact IH.
    + rewrite insert_app_r_alt by done. rewrite Nat.sub_diag. csimpl.
      specialize (IH Hex (pre ++ [ODict (<["target_new":=String.append space t]> d)])).
      rewrite length_app in IH. simpl in IH.
      replace (length pre + 1)%nat with (S (length pre)) in IH by lia.
      rewrite <- !app_assoc in IH. exact IH.
Qed.

Lemma collect_block_missing pre ds post (key : string) :
  Exists (fun d => d !! key = None) ds ->
  collect (pre ++ (ODict <$> ds) ++ post) key (seq (length pre) (length ds))
  = inl (KeyError key).
Proof.
  intros Hex. revert pre. induction ds as [|d ds IH]; intros pre.
  - by apply Exists_nil in Hex.
  - csimpl. unfold getitem. rewrite list_lookup_middle by done.
    destruct (d !! key) as [v|] eqn:Hv; [|done]. csimpl.
    apply Exists_cons in Hex as [Hd|Hex]; [congruence|].
    specialize (IH Hex (pre ++ [ODict d])).
    rewrite length_app in IH. simpl in IH.
    replace (length pre + 1)%nat with (S (length pre)) in IH by lia.
    rewrite <- !app_assoc in IH. csimpl in IH. by rewrite IH.
Qed.

Lemma prepare_requests_fresh s (requests : loc) items ds :
  s !! requests = Some (OList items) -> NoDup items ->
  Forall2 (fun (l : loc) d => s !! l = Some (ODict d)) items ds ->
  prepare_requests s requests
  = match preprocess (s ++ (ODict <$> ds) ++ [OList (seq (length s) (length ds))])
            (seq (length s) (length ds)) with
    | (s2, Some e) => (s2, inl e)
    | (s2, None) =>
        (s2, let* texts := collect s2 "prompt" (seq (length s) (length ds)) in
             let* targets := collect s2 "target_new" (seq (length s) (length ds)) in
             inr (texts, targets))
    end.
Proof.
  intros Hreq Hnd Hitems.
  unfold prepare_requests, deepcopy. rewrite Hreq.
  rewrite (deepcopy_items_fresh s ∅ items ds Hnd); [|  | done]; last first.
  { rewrite Forall_forall. intros l _. apply lookup_empty. }
  simpl. unfold list_items.
  rewrite list_lookup_middle by done.
  rewrite (Forall2_length _ _ _ Hitems).
  by rewrite <- app_assoc.
Qed.

(** The loop over a list that names one dictionary twice. *)
Lemma preprocess_twice s l d (p t : string) :
  s !! l = Some (ODict d) ->
  d !! "prompt" = Some p -> d !! "target_new" = Some t ->
  exists s2,
    preprocess s [l; l] = (s2, None)
    /\ collect s2 "prompt" [l; l] = inr [p; p]
    /\ collect s2 "target_new" [l; l]
       = inr [leading_space (leading_space t); leading_space (leading_space t)].
Proof.
  intros Hl Hp Ht.
  assert (Hlt : (l < length s)%nat) by (by eapply lookup_lt_Some).
  simpl. unfold prepend_space. rewrite Hl, Ht. unfold leading_space.
  destruct (String.eqb_spec t space) as [->|Hne].
  - rewrite Hl, Ht. simpl. exists s. split; [done|].
    unfold getitem. rewrite Hl, Hp, Ht. simpl. done.
  - rewrite list_lookup_insert_eq by done. rewrite lookup_insert_eq.
    destruct (String.eqb_spec (String.append space t) space) as [E|E].
    + eexists. split; [reflexivity|].
      unfold getitem. rewrite list_lookup_insert_eq by done.
      rewrite lookup_insert_ne by done. rewrite Hp, lookup_insert_eq.
      simpl. done.
    + eexists. split; [reflexivity|].
      unfold getitem. rewrite list_lookup_insert_eq
        by (by rewrite length_insert).
      rewrite lookup_insert_ne by done.
      rewrite lookup_insert_ne by done. rewrite Hp, lookup_insert_eq.
      simpl. done.
Qed.

End RequestEdges.

(** X11.  A request whose dictionary has no ["target_new"] makes the
    call fail with [KeyError] before the optimizer is built and before
    any training step, the model being already wrapped by the adapter;
    a request that has a target but no ["prompt"] fails the same way
    with the key ["prompt"]. *)
Theorem malformed_request_fails `{Provider} (s : store) (model : Model)
    (requests : loc) (hparams : HyperParams) (keep_original_weight : bool)
    (items : list loc) (ds : list (gmap string string)) :
  lora_type hparams = "lora"%string ->
  s !! requests = Some (OList items) ->
  NoDup items ->
  Forall2 (fun (l : loc) d => s !! l = Some (ODict d)) items ds ->
  let run := execute_roselora s model requests hparams keep_original_weight in
  (Exists (fun d : gmap string string => d !! "target_new" = None) ds ->
     exists m, run_result_of run = Failed (KeyError "target_new") m
               /\ EvOptimizer ∉ run_log run)
  /\ (Forall (fun d : gmap string string => is_Some (d !! "target_new")) ds ->
      Exists (fun d : gmap string string => d !! "prompt" = None) ds ->
      exists m, run_result_of run = Failed (KeyError "prompt") m
                /\ EvOptimizer ∉ run_log run).
Proof.
  intros Htype Hreq Hnd Hitems. cbv zeta. unfold execute_roselora.
  rewrite Htype. simpl String.eqb. cbv iota.
  rewrite (prepare_requests_fresh s requests items ds Hreq Hnd Hitems).
  split.
  - intros Hex.
    destruct (preprocess_block_missing s ds [OList (seq (length s) (length ds))] Hex)
      as [s' ->].
    eexists. split; [reflexivity|]. simpl.
    destruct (negb _); [|apply not_elem_of_nil].
    intros Hin. apply list_elem_of_singleton in Hin. discriminate.
  - intros Hall Hex. rewrite preprocess_block by done.
    rewrite <- (length_fmap stored_dict ds).
    rewrite collect_block_missing; last first.
    { apply Exists_fmap. eapply Exists_impl; [exact Hex|].
      intros d Hd. simpl. by rewrite stored_dict_other. }
    eexists. split; [reflexivity|]. simpl.
    destruct (negb _); [|apply not_elem_of_nil].
    intros Hin. apply list_elem_of_singleton in Hin. discriminate.
Qed.

Lemma malformed_request_fails_witness :
  exists m,
    run_result_of
      (@execute_roselora (toy (1 # 2) 8)
         [ODict (<["prompt"%string := "A"%string]> ∅); OList [0%nat]]
         toy_model 1%nat (toy_hparams 5 "lora") false)
    = Failed (KeyError "target_new") m.
Proof.
  destruct (@malformed_request_fails (toy (1 # 2) 8)
              [ODict (<["prompt"%string := "A"%string]> ∅); OList [0%nat]]
              toy_model 1%nat (toy_hparams 5 "lora") false [0%nat]
              [<["prompt"%string := "A"%string]> ∅]) as [Hmiss _].
  - reflexivity.
  - reflexivity.
  - apply (bool_decide_unpack _). by vm_compute.
  - repeat constructor.
  - destruct Hmiss as (m & Hm & _); [by left | by exists m].
Defined.

(** X12.  The deep copy keeps sharing: when the same dictionary is
    listed twice, both entries of the copy are one dictionary, the loop
    visits it twice, and a target other than the empty string and the
    single space ends up with two leading spaces, for both entries. *)
Theorem shared_request_double_space (s : store) (requests l : loc)
    (d : gmap string string) (p t : string) :
  s !! requests = Some (OList [l; l]) ->
  s !! l = Some (ODict d) ->
  d !! "prompt" = Some p ->
  d !! "target_new" = Some t ->
  (prepare_requests s requests).2
  = inr ([p; p], [leading_space (leading_space t); leading_space (leading_space t)])
  /\ (t <> ""%string -> t <> space ->
      leading_space (leading_space t) = String.append space (String.append space t)).
Proof.
  intros Hreq Hl Hp Ht. split.
  - unfold prepare_requests, deepcopy. rewrite Hreq. simpl.
    rewrite lookup_empty, Hl. simpl.
    rewrite lookup_insert_eq. simpl.
    unfold list_items. rewrite list_lookup_middle by (by rewrite length_app).
    cbv beta iota.
    destruct (preprocess_twice ((s ++ [ODict d]) ++ [OList [length s; length s]])
                (length s) d p t) as (s2 & H1 & H2 & H3); try done.
    { rewrite <- app_assoc. by apply list_lookup_middle. }
    unfold loc in *. rewrite H1. cbv beta iota. by rewrite H2, H3.
  - intros Hne Hsp. unfold leading_space.
    destruct (String.eqb_spec t space) as [->|_]; [done|].
    destruct (String.eqb_spec (String.append space t) space) as [E|_]; [|done].
    destruct t; [done | discriminate].
Qed.

Lemma shared_request_double_space_witness :
  (prepare_requests [toy_request "Q" "x"; OList [0; 0]%nat] 1).2
  = inr (["Q"; "Q"]%string, ["  x"; "  x"]%string).
Proof.
  destruct (shared_request_double_space [toy_request "Q" "x"; OList [0; 0]%nat]
              1%nat 0%nat
              (<["prompt"%string := "Q"%string]> (<["target_new"%string := "x"%string]> ∅))
              "Q" "x" eq_refl eq_refl eq_refl eq_refl) as [Hrun _].
  exact Hrun.
Defined.

(** ** The parameters along the run

    The lemmas of this section are about parameters with finite
    entries, as the tensors of rationals are. *)

Section RunInvariants.

Context `{Provider}.

Lemma prune_all_bounded (rt : Q) (iA iB : gmap string tensor) (ps ps' : params) :
  prune_all rt iA iB ps = inr ps' -> adapters_bounded ps'.
Proof.
  intros Hall. apply prune_all_spec in Hall. unfold adapters_bounded.
  induction Hall as [|[n p] [n' p'] ps ps' (Hn & _ & Hb) _ IH]; constructor;
    [|done].
  simpl in *. subst n'. exact Hb.
Qed.

Lemma micro_batch_bounded (it : Z) (txt tgt : list string) (st st' : TrainState) :
  (4 <= it)%Z -> micro_batch it txt tgt st = inr st' ->
  adapters_bounded (weights st').
Proof.
  intros Hit Hmb.
  destruct (micro_batch_inv it txt tgt st st' Hmb)
    as (label_mask & meter & ws' & _ & _ & Hrest).
  cbv zeta in Hrest. destruct Hrest as (Hprune & _ & _ & -> & _).
  assert (Hrate : Qltb (rate it) 1 = true) by (by apply Qltb_lt, rate_below_one).
  rewrite Hrate in Hprune. by eapply prune_all_bounded.
Qed.

Lemma micro_batches_bounded (it : Z) (batches : list (list string * list string))
    (st st' : TrainState) :
  (4 <= it)%Z -> micro_batches it batches st = inr st' ->
  adapters_bounded (weights st) \/ batches <> [] ->
  adapters_bounded (weights st').
Proof.
  intros Hit. revert st. induction batches as [|[txt tgt] rest IH]; intros st; simpl.
  - intros [= <-] [Hb|Hne]; done.
  - destruct (micro_batch it txt tgt st) as [e|st1] eqn:Hmb; simpl; [done|].
    intros Hrest _. apply (IH st1 Hrest). left.
    by eapply micro_batch_bounded.
Qed.

Lemma chunks_nonempty {A : Type} (arr : list A) (n : Z) :
  arr <> [] -> chunks arr n <> [].
Proof.
  intros Hne. destruct (Z.le_gt_cases n 0) as [Hn|Hn].
  - unfold chunks. rewrite chunks_go_nonpositive by done. simpl.
    by case_decide.
  - by rewrite chunks_unfold by (lia || done).
Qed.

Lemma iteration_bounded (hparams : HyperParams) (texts targets : list string)
    (it : Z) (st st' : TrainState) :
  (4 <= it)%Z -> texts <> [] -> targets <> [] ->
  iteration hparams texts targets it st = inr st' ->
  adapters_bounded (weights st').
Proof.
  intros Hit Htexts Htargets. unfold iteration.
  destruct (micro_batches it _ _) as [e|st1] eqn:Hmbs; simpl; [done|].
  destruct (cur_rate st1); [|done]. intros [= <-]. simpl.
  eapply micro_batches_bounded; [exact Hit | exact Hmbs |]. right.
  pose proof (chunks_nonempty texts (batch_size hparams) Htexts).
  pose proof (chunks_nonempty targets (batch_size hparams) Htargets).
  destruct (chunks texts _), (chunks targets _); done.
Qed.

Lemma state_after_bounded (hparams : HyperParams) (texts targets : list string)
    (st0 st' : TrainState) (k : nat) :
  (5 <= k)%nat -> texts <> [] -> targets <> [] ->
  state_after hparams texts targets st0 k = inr st' ->
  adapters_bounded (weights st').
Proof.
  intros Hk Htexts Htargets. destruct k as [|k]; [lia|]. simpl.
  destruct (state_after hparams texts targets st0 k) as [e|st]; simpl; [done|].
  apply iteration_bounded; (done || lia).
Qed.

Lemma train_loop_bounded (hparams : HyperParams) (texts targets : list string)
    (n : nat) (st0 st' : TrainState) (how : loop_exit) :
  (5 <= n)%nat -> texts <> [] -> targets <> [] ->
  train_loop hparams texts targets n 0 st0 = (how, st') ->
  (forall it e, how <> Raised it e) ->
  adapters_bounded (weights st').
Proof.
  intros Hn Htexts Htargets Hrun Hhow.
  assert (Hq0 : no_stop_before hparams texts targets st0 0)
    by (intros j sj Hj; lia).
  pose proof (train_loop_from hparams texts targets st0 n 0 st0 eq_refl Hq0)
    as Hfrom.
  change (Z.of_nat 0) with 0%Z in Hfrom. rewrite Hrun in Hfrom.
  destruct how as [it| |it e].
  - destruct Hfrom as (m & -> & Hm & Hst & Hstop & _).
    apply stop_now_iff in Hstop as [Hit _].
    apply (state_after_bounded hparams texts targets st0 st' (S m));
      (done || lia).
  - destruct Hfrom as [Hst _].
    by apply (state_after_bounded hparams texts targets st0 st' n).
  - by destruct (Hhow it e).
Qed.

End RunInvariants.

Section RequestLengths.

Implicit Types (s : store) (items ls : list loc) (memo : gmap loc loc).

Lemma deepcopy_items_length s memo items s' ls :
  deepcopy_items s memo items = inr (s', ls) -> length ls = length items.
Proof.
  revert s memo s' ls. induction items as [|l rest IH]; intros s memo s' ls; simpl.
  - by intros [= <- <-].
  - destruct (memo !! l) as [l'|].
    + destruct (deepcopy_items s memo rest) as [e|[s1 ls1]] eqn:Hrest;
        simpl; [done|].
      intros [= <- <-]. simpl. f_equal. by eapply IH.
    + destruct (s !! l) as [[?|d]|]; try done. unfold alloc.
      destruct (deepcopy_items (s ++ _) _ rest) as [e|[s1 ls1]] eqn:Hrest;
        simpl; [done|].
      intros [= <- <-]. simpl. f_equal. by eapply IH.
Qed.

Lemma collect_length s (key : string) items (vs : list string) :
  collect s key items = inr vs -> length vs = length items.
Proof.
  revert vs. induction items as [|l rest IH]; intros vs; simpl.
  - by intros [= <-].
  - destruct (getitem s key l) as [e|v]; simpl; [done|].
    destruct (collect s key rest) as [e|vs']; simpl; [done|].
    intros [= <-]. simpl. f_equal. by apply IH.
Qed.

Lemma prepare_requests_lengths s (requests : loc) items (texts targets : list string) :
  s !! requests = Some (OList items) ->
  (prepare_requests s requests).2 = inr (texts, targets) ->
  length texts = length items /\ length targets = length items.
Proof.
  intros Hreq. unfold prepare_requests, deepcopy. rewrite Hreq.
  destruct (deepcopy_items s ∅ items) as [e|[s1 ls]] eqn:Hcopy; simpl; [done|].
  apply deepcopy_items_length in Hcopy.
  unfold list_items. rewrite list_lookup_middle by done.
  destruct (preprocess _ ls) as [s2 [e|]]; [done|]. simpl.
  destruct (collect s2 "prompt" ls) as [e|ps] eqn:Hps; simpl; [done|].
  destruct (collect s2 "target_new" ls) as [e|ts] eqn:Hts; simpl; [done|].
  intros [= <- <-].
  apply collect_length in Hps, Hts. lia.
Qed.

End RequestLengths.

(** X13.  A completed micro-batch keeps its batch loss in
    [loss_meter.val].  Up to iteration 3 it leaves the parameters exactly
    as the optimizer step produced them, unpruned and unclamped.  From
    iteration 4 on, when its batch loss is a finite number, it ends with
    all entries of all adapter parameters within 3e-3 in absolute
    value. *)
Theorem micro_batch_pruning_phase `{Provider} (it : Z) (txt tgt : list string)
    (st st' : TrainState) :
  micro_batch it txt tgt st = inr st' ->
  exists label_mask,
    batch_label_mask txt tgt = inr label_mask
    /\ AverageMeter.val (loss_meter st')
       = batch_loss (token_loss (weights st) (batch_inputs_targets txt tgt))
                    label_mask
    /\ ((it <= 3)%Z ->
        weights st'
        = (adam_step (opt st) (weights st)
             (backward (weights st) (batch_inputs_targets txt tgt) label_mask)).2)
    /\ ((4 <= it)%Z ->
        (exists q, AverageMeter.val (loss_meter st') = Fin q) ->
        adapters_bounded (weights st')).
Proof.
  intros Hmb.
  destruct (micro_batch_inv it txt tgt st st' Hmb)
    as (label_mask & meter & ws' & Hmask & Hupd & Hrest).
  cbv zeta in Hrest. destruct Hrest as (Hprune & _ & _ & Hws & Hmeter & _).
  exists label_mask. split; [done|]. split; [|split].
  - rewrite Hmeter. unfold AverageMeter.update in Hupd.
    destruct (_ =? 0)%Z; [done|]. by injection Hupd as <-.
  - intros Hit.
    assert (Hrate : Qltb (rate it) 1 = false).
    { apply not_true_iff_false. rewrite Qltb_lt, rate_below_one. lia. }
    rewrite Hrate in Hprune. injection Hprune as <-. done.
  - intros Hit _. by eapply micro_batch_bounded.
Qed.

Lemma micro_batch_pruning_phase_witness :
  exists st',
    @micro_batch (toy (1 # 2) 8) 6 ["A"%string] [" "%string] (toy_state 0 (1 # 2))
    = inr st'
    /\ AverageMeter.val (loss_meter st') = Fin (1 # 2)
    /\ adapters_bounded (weights st').
Proof.
  set (st' := match @micro_batch (toy (1 # 2) 8) 6 ["A"%string] [" "%string]
                      (toy_state 0 (1 # 2)) with
              | inr s => s
              | inl _ => toy_state 0 (1 # 2)
              end).
  assert (Hmb : @micro_batch (toy (1 # 2) 8) 6 ["A"%string] [" "%string]
                  (toy_state 0 (1 # 2)) = inr st') by (by vm_compute).
  assert (Hval : AverageMeter.val (loss_meter st') = Fin (1 # 2)) by (by vm_compute).
  exists st'. split; [exact Hmb|]. split; [exact Hval|].
  destruct (@micro_batch_pruning_phase (toy (1 # 2) 8) 6 ["A"%string]
              [" "%string] (toy_state 0 (1 # 2)) st' Hmb)
    as (label_mask & _ & _ & _ & Hb).
  apply Hb; [lia | by exists (1 # 2)%Q].
Defined.

(** X14.  When at least five iterations are requested, the request
    list is not empty and every average loss that the progress bar
    reported is a finite number, the model that [execute_roselora]
    returns, whether the loop ran to its end or stopped early, has all
    entries of all its adapter parameters within 3e-3 in absolute
    value. *)
Theorem returned_adapters_bounded `{Provider} (s : store) (model : Model)
    (requests : loc) (hparams : HyperParams) (keep_original_weight : bool)
    (items : list loc) (m : Model) (how : loop_exit) :
  s !! requests = Some (OList items) -> items <> [] ->
  (5 <= num_steps hparams)%Z ->
  let run := execute_roselora s model requests hparams keep_original_weight in
  run_result_of run = Returned m how ->
  forallb reports_finite (run_log run) = true ->
  adapters_bounded (named_parameters m).
Proof.
  intros Hreq Hitems Hsteps. cbv zeta. unfold execute_roselora.
  destruct (String.eqb (lora_type hparams) "lora"); [|done].
  pose proof (prepare_requests_lengths s requests items) as Hlen.
  destruct (prepare_requests s requests) as [s' [e|[texts targets]]]; [done|].
  destruct (Hlen texts targets Hreq eq_refl) as [Htexts Htargets].
  destruct (train_loop _ _ _ _ _ _) as [how' st'] eqn:Hrun.
  destruct how' as [it| |it e]; simpl; [| |done].
  - intros [= <- <-] _. simpl.
    eapply (train_loop_bounded hparams texts targets); [| | |exact Hrun|done].
    + lia.
    + intros ->. destruct items; done.
    + intros ->. destruct items; done.
  - intros [= <- <-] _. simpl.
    eapply (train_loop_bounded hparams texts targets); [| | |exact Hrun|done].
    + lia.
    + intros ->. destruct items; done.
    + intros ->. destruct items; done.
Qed.

Lemma returned_adapters_bounded_witness :
  exists m how,
    run_result_of
      (@execute_roselora (toy (1 # 2) 8) toy_store toy_model 3%nat
         (toy_hparams 5 "lora") false) = Returned m how
    /\ forallb reports_finite
         (run_log
            (@execute_roselora (toy (1 # 2) 8) toy_store toy_model 3%nat
               (toy_hparams 5 "lora") false)) = true
    /\ adapters_bounded (named_parameters m).
Proof.
  destruct (run_result_of
      (@execute_roselora (toy (1 # 2) 8) toy_store toy_model 3%nat
         (toy_hparams 5 "lora") false)) as [e m| it e |m how] eqn:E;
    [vm_compute in E; discriminate | vm_compute in E; discriminate |].
  assert (Hfin : forallb reports_finite
            (run_log
               (@execute_roselora (toy (1 # 2) 8) toy_store toy_model 3%nat
                  (toy_hparams 5 "lora") false)) = true) by (by vm_compute).
  exists m, how. split; [reflexivity|]. split; [exact Hfin|].
  apply (@returned_adapters_bounded (toy (1 # 2) 8) toy_store toy_model 3%nat
           (toy_hparams 5 "lora") false [0; 1; 2]%nat m how);
    [reflexivity | done | by vm_compute | exact E | exact Hfin].
Defined.

(** X15.  With a number of steps of zero or less the loop body never
    runs: the model is still prepared, wrapped and flagged and the
    requests are still copied and checked, the optimizer is built, but
    no text is tokenized and the returned parameters are those of the
    wrapped model. *)
Theorem zero_steps_untrained `{Provider} (s : store) (model : Model)
    (requests : loc) (hparams : HyperParams) (keep_original_weight : bool)
    (texts targets : list string) :
  lora_type hparams = "lora"%string ->
  (num_steps hparams <= 0)%Z ->
  (prepare_requests s requests).2 = inr (texts, targets) ->
  let run := execute_roselora s model requests hparams keep_original_weight in
  let wrap := negb (negb keep_original_weight
                    && bool_decide (is_Some (peft_config model))) in
  run_result_of run
  = Returned (set_parallel (if wrap
                            then get_peft_model (prepare model) (make_config hparams)
                            else prepare model)) Exhausted
  /\ run_log run = (if wrap then [EvGetPeftModel] else []) ++ [EvOptimizer].
Proof.
  intros Htype Hsteps Hreq. cbv zeta. unfold execute_roselora.
  rewrite Htype. simpl String.eqb. cbv iota.
  destruct (prepare_requests s requests) as [s' [e|[texts' targets']]];
    simpl in Hreq; [done|].
  replace (Z.to_nat (num_steps hparams)) with 0%nat by lia.
  simpl. split; reflexivity.
Qed.

Lemma zero_steps_untrained_witness :
  run_log
    (@execute_roselora (toy (1 # 2) 8) toy_store toy_model 3%nat
       (toy_hparams 0 "lora") false)
  = [EvGetPeftModel; EvOptimizer].
Proof.
  destruct (@zero_steps_untrained (toy (1 # 2) 8) toy_store toy_model 3%nat
              (toy_hparams 0 "lora") false
              ["The capital of France is"; "A"; "B"]%string
              [" Paris"; " "; " "]%string) as [_ Hlog].
  - reflexivity.
  - simpl. lia.
  - by vm_compute.
  - exact Hlog.
Defined.

(** ** The label mask and the masked sum *)

Section MaskShape.

Lemma count_true_app (a b : list bool) :
  count_true (a ++ b) = (count_true a + count_true b)%nat.
Proof.
  unfold count_true. rewrite List.filter_app. apply length_app.
Qed.

Lemma count_true_replicate_true (n : nat) : count_true (replicate n true) = n.
Proof. unfold count_true. induction n as [|n IH]; simpl; [done | by rewrite IH]. Qed.

Lemma label_mask_row_lookup (prompt_target_len len i : nat) :
  (i < prompt_target_len)%nat -> (len <= prompt_target_len)%nat ->
  label_mask_row prompt_target_len len !! i = Some (bool_decide (len <= i)%nat).
Proof.
  intros Hi Hlen. unfold label_mask_row.
  destruct (Nat.lt_ge_cases i len) as [Hlt|Hge].
  - rewrite lookup_app_l by (rewrite length_replicate; lia).
    rewrite lookup_replicate_2 by done.
    by rewrite bool_decide_eq_false_2 by lia.
  - rewrite lookup_app_r by (rewrite length_replicate; lia).
    rewrite length_replicate.
    rewrite lookup_replicate_2 by lia.
    by rewrite bool_decide_eq_true_2 by lia.
Qed.

Lemma label_mask_row_selected (prompt_target_len len : nat) :
  (len <= prompt_target_len)%nat ->
  count_true (tail (label_mask_row prompt_target_len len))
  = (prompt_target_len - Nat.max len 1)%nat.
Proof.
  intros Hlen. unfold label_mask_row.
  destruct len as [|len]; simpl.
  - rewrite Nat.sub_0_r.
    destruct prompt_target_len as [|n]; simpl; [done|].
    rewrite count_true_replicate_true. lia.
  - rewrite count_true_app, count_true_replicate_false,
      count_true_replicate_true. lia.
Qed.

(** Losses at positions the shifted mask leaves out do not count. *)
Lemma masked_sum_ext (l1 l2 : list Q) (mask_row : list bool) :
  length l1 = length l2 ->
  (forall i, tail mask_row !! i = Some true -> l1 !! i = l2 !! i) ->
  masked_sum l1 mask_row = masked_sum l2 mask_row.
Proof.
  unfold masked_sum. generalize (tail mask_row) as m. intros m.
  revert l2 m. induction l1 as [|x l1 IH]; intros [|y l2] [|b m] Hlen Hagree;
    simpl in *; try done.
  f_equal.
  - destruct b; [|done].
    specialize (Hagree 0%nat eq_refl). simpl in Hagree. congruence.
  - apply IH; [lia|]. intros i Hi. apply (Hagree (S i) Hi).
Qed.

End MaskShape.

(** X16.  For a prompt of [len <= L] tokens in a padded sequence of [L]
    tokens, the label mask is false on the first [len] positions and true
    on the rest, and the shifted mask selects [L - max len 1] token
    losses: the target tokens, but for an empty prompt not the first of
    them. *)
Theorem label_mask_selects_target (prompt_target_len len : nat) :
  (len <= prompt_target_len)%nat ->
  length (label_mask_row prompt_target_len len) = prompt_target_len
  /\ (forall i, (i < prompt_target_len)%nat ->
        label_mask_row prompt_target_len len !! i
        = Some (bool_decide (len <= i)%nat))
  /\ count_true (tail (label_mask_row prompt_target_len len))
     = (prompt_target_len - Nat.max len 1)%nat.
Proof.
  intros Hlen. split; [|split].
  - unfold label_mask_row. rewrite length_app, !length_replicate. lia.
  - intros i Hi. by apply label_mask_row_lookup.
  - by apply label_mask_row_selected.
Qed.

Lemma label_mask_selects_target_witness :
  count_true (tail (label_mask_row 7 0)) = 6%nat
  /\ count_true (tail (label_mask_row 7 4)) = 3%nat.
Proof.
  split.
  - apply (label_mask_selects_target 7 0). lia.
  - apply (label_mask_selects_target 7 4). lia.
Defined.

(** X17.  The loss of an example depends only on the token losses that
    its shifted mask selects: two rows of token losses of the same
    length that agree on the selected positions have the same masked sum
    and the same per-example loss, whatever they hold on the prompt and
    padding positions. *)
Theorem example_loss_ignores_prompt (l1 l2 : list Q) (mask_row : list bool) :
  length l1 = length l2 ->
  (forall i, tail mask_row !! i = Some true -> l1 !! i = l2 !! i) ->
  masked_sum l1 mask_row = masked_sum l2 mask_row
  /\ example_loss l1 mask_row = example_loss l2 mask_row.
Proof.
  intros Hlen Hagree.
  pose proof (masked_sum_ext l1 l2 mask_row Hlen Hagree) as Hsum.
  split; [exact Hsum|]. unfold example_loss. by rewrite Hsum.
Qed.

Lemma example_loss_ignores_prompt_witness :
  example_loss [100; 7; 9]%Q (label_mask_row 4 2)
  = example_loss [0; 7; 9]%Q (label_mask_row 4 2).
Proof.
  apply (example_loss_ignores_prompt [100; 7; 9]%Q [0; 7; 9]%Q (label_mask_row 4 2)).
  - reflexivity.
  - intros [|[|[|i]]]; simpl; done.
Defined.

(** ** The running average *)

Section Meter.

Local Open Scope Q_scope.

(** The sum and the count after a sequence of finite updates with
    positive weights. *)
Lemma meter_updates_finite (m : AverageMeter.t) (s0 : Q) (vs : list (Q * Z)) :
  AverageMeter.sum m = Fin s0 -> (0 <= AverageMeter.count m)%Z ->
  Forall (fun vn => (0 < snd vn)%Z) vs ->
  exists m' s',
    meter_updates m (finite_updates vs) = inr m'
    /\ AverageMeter.sum m' = Fin s'
    /\ s' == s0 + weighted_sum vs
    /\ AverageMeter.count m' = (AverageMeter.count m + total_weight vs)%Z
    /\ (vs <> [] ->
        exists a, AverageMeter.avg m' = Fin a
                  /\ a == s' / inject_Z (AverageMeter.count m')).
Proof.
  intros Hsum Hcount Hpos. revert m s0 Hsum Hcount.
  induction Hpos as [|[v n] vs Hn _ IH]; intros m s0 Hsum Hcount.
  - exists m, s0. simpl. repeat split; try done.
    + lra.
    + lia.
  - simpl in Hn. simpl. unfold AverageMeter.update. rewrite Hsum. simpl.
    destruct (Z.eqb_spec (AverageMeter.count m + n) 0) as [E|E]; [lia|].
    simpl.
    set (m1 := {| AverageMeter.val := Fin v;
                  AverageMeter.avg := _;
                  AverageMeter.sum := Fin (s0 + v * inject_Z n);
                  AverageMeter.count := (AverageMeter.count m + n)%Z |}).
    destruct (IH m1 (s0 + v * inject_Z n) eq_refl ltac:(simpl; lia))
      as (m' & s' & Hrun & Hs' & Hs'eq & Hc' & Havg).
    exists m', s'. split; [exact Hrun|]. split; [exact Hs'|].
    split; [rewrite Hs'eq; simpl; lra|].
    split; [rewrite Hc'; simpl; lia|].
    intros _. destruct vs as [|vn vs].
    + simpl in Hrun. injection Hrun as <-. simpl in Hs'. injection Hs' as <-.
      simpl.
      assert (Hnz : Qeq_bool (inject_Z (AverageMeter.count m + n)) 0 = false).
      { apply not_true_iff_false. rewrite Qeq_bool_iff.
        change 0 with (inject_Z 0). rewrite inject_Z_injective. exact E. }
      rewrite Hnz. eexists. split; [reflexivity | reflexivity].
    + by apply Havg.
Qed.

(** Once the sum is not a number, it stays so, and so does the average. *)
Lemma update_nan_sticky (m m' : AverageMeter.t) (v : fval) (n : Z) :
  AverageMeter.sum m = NaN \/ v = NaN ->
  AverageMeter.update m v n = inr m' ->
  AverageMeter.sum m' = NaN /\ AverageMeter.avg m' = NaN.
Proof.
  intros Hnan. unfold AverageMeter.update.
  destruct (_ =? 0)%Z; [done|]. intros [= <-]. simpl.
  assert (Hs : fadd (AverageMeter.sum m) (fmul v (Fin (inject_Z n))) = NaN).
  { destruct Hnan as [-> | ->]; [done|]. simpl. by destruct (AverageMeter.sum m). }
  by rewrite Hs.
Qed.

End Meter.

Section MeterInLoop.

Context `{Provider}.

Lemma micro_batch_nan (it : Z) (txt tgt : list string) (st st1 : TrainState) :
  AverageMeter.sum (loss_meter st) = NaN
  \/ (exists label_mask,
        batch_label_mask txt tgt = inr label_mask
        /\ batch_loss (token_loss (weights st) (batch_inputs_targets txt tgt))
                      label_mask = NaN) ->
  micro_batch it txt tgt st = inr st1 ->
  AverageMeter.sum (loss_meter st1) = NaN
  /\ AverageMeter.avg (loss_meter st1) = NaN.
Proof.
  intros Hnan Hmb.
  destruct (micro_batch_inv it txt tgt st st1 Hmb)
    as (label_mask & meter & ws' & Hmask & Hupd & Hrest).
  cbv zeta in Hrest. destruct Hrest as (_ & _ & _ & _ & -> & _).
  eapply update_nan_sticky; [|exact Hupd].
  destruct Hnan as [Hs|(lm & Hlm & Hloss)]; [by left|].
  right. rewrite Hmask in Hlm. by injection Hlm as <-.
Qed.

Lemma micro_batches_nan (it : Z) (batches : list (list string * list string))
    (st st' : TrainState) :
  AverageMeter.sum (loss_meter st) = NaN ->
  AverageMeter.avg (loss_meter st) = NaN ->
  micro_batches it batches st = inr st' ->
  AverageMeter.avg (loss_meter st') = NaN.
Proof.
  revert st. induction batches as [|[txt tgt] rest IH]; intros st Hs Ha; simpl.
  - by intros [= <-].
  - destruct (micro_batch it txt tgt st) as [e|st1] eqn:Hmb; simpl; [done|].
    destruct (micro_batch_nan it txt tgt st st1 (or_introl Hs) Hmb) as [Hs1 Ha1].
    by apply IH.
Qed.

End MeterInLoop.

(** X18.  Starting from a reset meter, a non-empty sequence of updates
    with finite values and positive weights succeeds and leaves [count]
    at the total weight and [avg] at the weighted mean of the values;
    after [update(3, n=2)] and [update(5, n=1)] the average is 11/3. *)
Theorem meter_weighted_mean (m0 : AverageMeter.t) (vs : list (Q * Z)) :
  vs <> [] -> Forall (fun vn => (0 < snd vn)%Z) vs ->
  exists m a,
    meter_updates (AverageMeter.reset m0)
      (map (fun vn => (Fin (fst vn), snd vn)) vs) = inr m
    /\ AverageMeter.count m = total_weight vs
    /\ AverageMeter.avg m = Fin a
    /\ (a == weighted_sum vs / inject_Z (total_weight vs))%Q.
Proof.
  intros Hne Hpos.
  destruct (meter_updates_finite (AverageMeter.reset m0) 0 vs eq_refl
              ltac:(simpl; lia) Hpos)
    as (m & s' & Hrun & Hs' & Hs'eq & Hc & Havg).
  destruct (Havg Hne) as (a & Ha & Haeq).
  rewrite Z.add_0_l in Hc.
  exists m, a. split; [exact Hrun|].
  split; [exact Hc|]. split; [exact Ha|].
  rewrite Haeq, Hc, Hs'eq, Qplus_0_l. reflexivity.
Qed.

Lemma meter_weighted_mean_witness :
  exists m a,
    meter_updates (AverageMeter.reset AverageMeter.init)
      [(Fin 3, 2%Z); (Fin 5, 1%Z)] = inr m
    /\ AverageMeter.avg m = Fin a /\ (a == 11 # 3)%Q.
Proof.
  destruct (meter_weighted_mean AverageMeter.init [(3%Q, 2%Z); (5%Q, 1%Z)])
    as (m & a & Hrun & _ & Ha & Haeq).
  - done.
  - repeat constructor.
  - exists m, a. split; [exact Hrun|]. split; [exact Ha|].
    rewrite Haeq. reflexivity.
Defined.

(** X19.  One batch loss that is not a number spoils the average of
    its iteration: after the micro-batch that computed it and any further
    micro-batches of the same iteration, the running average is not a
    number and the early-stop test is false, so the loop cannot stop at
    that iteration. *)
Theorem nan_loss_blocks_early_stop `{Provider} (it : Z) (txt tgt : list string)
    (rest : list (list string * list string)) (st st1 st' : TrainState)
    (label_mask : list (list bool)) :
  batch_label_mask txt tgt = inr label_mask ->
  batch_loss (token_loss (weights st) (batch_inputs_targets txt tgt)) label_mask
  = NaN ->
  micro_batch it txt tgt st = inr st1 ->
  micro_batches it rest st1 = inr st' ->
  AverageMeter.avg (loss_meter st') = NaN /\ stop_now it st' = false.
Proof.
  intros Hmask Hloss Hmb Hrest.
  assert (Havg : AverageMeter.avg (loss_meter st') = NaN).
  { eapply micro_batches_nan; [| |exact Hrest].
    - eapply (micro_batch_nan it txt tgt st st1); [|exact Hmb].
      right. exists label_mask. by split.
    - eapply (micro_batch_nan it txt tgt st st1); [|exact Hmb].
      right. exists label_mask. by split. }
  split; [exact Havg|]. unfold stop_now. rewrite Havg. simpl.
  apply andb_false_r.
Qed.

Lemma nan_loss_blocks_early_stop_witness :
  exists st',
    @micro_batch (toy_space_pad (1 # 2) 8) 30 ["A"%string] [" "%string]
      (toy_state 32 (1 # 2)) = inr st'
    /\ @stop_now (toy_space_pad (1 # 2) 8) 30 st' = false.
Proof.
  set (st' := match @micro_batch (toy_space_pad (1 # 2) 8) 30 ["A"%string]
                      [" "%string] (toy_state 32 (1 # 2)) with
              | inr s => s
              | inl _ => toy_state 32 (1 # 2)
              end).
  assert (Hmb : @micro_batch (toy_space_pad (1 # 2) 8) 30 ["A"%string]
                  [" "%string] (toy_state 32 (1 # 2)) = inr st')
    by (by vm_compute).
  exists st'. split; [exact Hmb|].
  eapply (@nan_loss_blocks_early_stop (toy_space_pad (1 # 2) 8) 30
            ["A"%string] [" "%string] [] (toy_state 32 (1 # 2)) st' st').
  - by vm_compute.
  - by vm_compute.
  - exact Hmb.
  - reflexivity.
Defined.

(** ** The rank along the schedule *)

(** X20.  For a dimension [size], the rank [k] of the threshold never
    decreases from an iteration to a later one, and from iteration 20 on
    it is [floor(0.95 * size)], that is [95 * size / 100]. *)
Theorem rank_schedule (size : nat) (it it' : Z) :
  ((it <= it')%Z -> (k_of size (rate it) <= k_of size (rate it'))%Z)
  /\ ((20 <= it)%Z -> k_of size (rate it) = (95 * Z.of_nat size / 100)%Z).
Proof.
  split.
  - intros Hle. apply k_of_mono; [done | by apply rate_nonincreasing |].
    apply rate_range.
  - intros Hge. rewrite rate_steady by done.
    rewrite k_of_floor by (by vm_compute).
    unfold sparsity.
    assert (E : (inject_Z (Z.of_nat size) * (1 - (5 # 100))
                 == (95 * Z.of_nat size # 100))%Q).
    { unfold Qeq, Qmult, Qminus, Qplus, Qopp, inject_Z. simpl. lia. }
    rewrite E. reflexivity.
Qed.

Lemma rank_schedule_witness :
  (k_of 8 (rate 4) <= k_of 8 (rate 12))%Z /\ k_of 8 (rate 24) = 7%Z.
Proof.
  destruct (rank_schedule 8 4 12) as [Hmono _].
  destruct (rank_schedule 8 24 24) as [_ Hsteady].
  split; [apply Hmono; lia | rewrite Hsteady by lia; reflexivity].
Defined.

(** ** The order of the calls *)

Section CallOrder.

Context `{Provider}.

Lemma micro_batch_log (it : Z) (txt tgt : list string) (st st' : TrainState) :
  micro_batch it txt tgt st = inr st' ->
  exists evs, log st' = log st ++ evs /\ Forall loop_event evs.
Proof.
  unfold micro_batch.
  destruct (batch_label_mask txt tgt) as [e|label_mask]; [done|]. simpl.
  destruct (AverageMeter.update _ _ _) as [e|meter]; [done|]. simpl.
  destruct (track_importance _ _ _ _) as [iA iB].
  destruct (adam_step _ _ _) as [opt' ws].
  destruct (if Qltb (rate it) 1 then _ else _) as [e|ws'] eqn:Hp; [done|].
  simpl. intros [= <-]. simpl. eexists. split; [reflexivity|].
  destruct (Qltb (rate it) 1); repeat constructor; discriminate.
Qed.

Lemma micro_batches_log (it : Z) (batches : list (list string * list string))
    (st st' : TrainState) :
  micro_batches it batches st = inr st' ->
  exists evs, log st' = log st ++ evs /\ Forall loop_event evs.
Proof.
  revert st. induction batches as [|[txt tgt] rest IH]; intros st; simpl.
  - intros [= <-]. exists []. by rewrite app_nil_r.
  - destruct (micro_batch it txt tgt st) as [e|st1] eqn:Hmb; simpl; [done|].
    intros Hrest.
    destruct (micro_batch_log it txt tgt st st1 Hmb) as (ev1 & Hl1 & Hf1).
    destruct (IH st1 Hrest) as (ev2 & Hl2 & Hf2).
    exists (ev1 ++ ev2). rewrite Hl2, Hl1, app_assoc.
    split; [done | by apply Forall_app].
Qed.

Lemma iteration_log (hparams : HyperParams) (texts targets : list string)
    (it : Z) (st st' : TrainState) :
  iteration hparams texts targets it st = inr st' ->
  exists evs, log st' = log st ++ evs /\ Forall loop_event evs.
Proof.
  unfold iteration.
  destruct (micro_batches it _ _) as [e|st1] eqn:Hmbs; simpl; [done|].
  destruct (micro_batches_log _ _ _ _ Hmbs) as (ev1 & Hl1 & Hf1).
  simpl in Hl1.
  destruct (cur_rate st1); [|done]. intros [= <-]. simpl.
  eexists (ev1 ++ [_]). rewrite Hl1, app_assoc. split; [done|].
  apply Forall_app. split; [done|]. repeat constructor; discriminate.
Qed.

Lemma train_loop_log (hparams : HyperParams) (texts targets : list string)
    (todo : nat) (it : Z) (st st' : TrainState) (how : loop_exit) :
  train_loop hparams texts targets todo it st = (how, st') ->
  exists evs, log st' = log st ++ evs /\ Forall loop_event evs.
Proof.
  revert it st. induction todo as [|todo IH]; intros it st; simpl.
  - intros [= <- <-]. exists []. by rewrite app_nil_r.
  - destruct (iteration hparams texts targets it st) as [e|st1] eqn:Hit.
    + intros [= <- <-]. exists []. by rewrite app_nil_r.
    + destruct (iteration_log _ _ _ _ _ _ Hit) as (ev1 & Hl1 & Hf1).
      destruct (stop_now it st1).
      * intros [= <- <-]. by exists ev1.
      * intros Hrest. destruct (IH _ _ Hrest) as (ev2 & Hl2 & Hf2).
        exists (ev1 ++ ev2). rewrite Hl2, Hl1, app_assoc.
        split; [done | by apply Forall_app].
Qed.

End CallOrder.

(** X21.  In a call that gets past the adapter-type check and the
    preparation of the requests, the adapter wrapper is called at most
    once, first of all, and exactly when [keep_original_weight] is set or
    the model carries no adapter yet; the optimizer is built exactly
    once, right after; everything that follows is tokenization, forward
    and backward passes, optimizer steps, pruning and progress
    descriptions. *)
Theorem call_order `{Provider} (s : store) (model : Model) (requests : loc)
    (hparams : HyperParams) (keep_original_weight : bool)
    (texts targets : list string) :
  lora_type hparams = "lora"%string ->
  (prepare_requests s requests).2 = inr (texts, targets) ->
  exists evs,
    run_log (execute_roselora s model requests hparams keep_original_weight)
    = (if negb (negb keep_original_weight
                && bool_decide (is_Some (peft_config model)))
       then [EvGetPeftModel] else [])
      ++ [EvOptimizer] ++ evs
    /\ Forall loop_event evs.
Proof.
  intros Htype Hreq. unfold execute_roselora.
  rewrite Htype. simpl String.eqb. cbv iota.
  destruct (prepare_requests s requests) as [s' [e|[texts' targets']]];
    simpl in Hreq; [done|].
  destruct (train_loop _ _ _ _ _ _) as [how st'] eqn:Hrun.
  destruct (train_loop_log _ _ _ _ _ _ _ _ Hrun) as (evs & Hlog & Hevs).
  simpl in Hlog. exists evs. split; [|done].
  destruct how; simpl; by rewrite Hlog, <- app_assoc.
Qed.

Lemma call_order_witness :
  exists evs,
    run_log
      (@execute_roselora (toy (1 # 2) 8) toy_store toy_model 3%nat
         (toy_hparams 2 "lora") false)
    = [EvGetPeftModel; EvOptimizer] ++ evs
    /\ Forall loop_event evs.
Proof.
  destruct (@call_order (toy (1 # 2) 8) toy_store toy_model 3%nat
              (toy_hparams 2 "lora") false
              ["The capital of France is"; "A"; "B"]%string
              [" Paris"; " "; " "]%string) as (evs & Hlog & Hevs).
  - reflexivity.
  - by vm_compute.
  - exists evs. split; [exact Hlog | exact Hevs].
Defined.

(** ** [apply_roselora_to_model] *)

(** The copy is taken from the model as it is passed in: it keeps the
    caller's flags, which the edited model has lost. *)
Lemma apply_copy_snapshot `{Provider} (s : store) (model : Model)
    (requests : loc) (hparams : HyperParams) (keep_original_weight : bool) :
  (apply_roselora_to_model s model requests hparams true keep_original_weight).2
  = Some model
  /\ (apply_roselora_to_model s model requests hparams false keep_original_weight).2
     = None
  /\ (apply_roselora_to_model s model requests hparams true keep_original_weight).1
     = (apply_roselora_to_model s model requests hparams false keep_original_weight).1.
Proof. done. Qed.
